(** * VulnMCP: dispatcher registries and progress store

    A shallow embedding of the core of the VulnMCP server:
    - [challenges/base.py]            ([BaseChallenge.get_hint], [calculate_score]),
    - [challenges/scoring/manager.py] ([ScoreManager], with the leaderboard),
    - [server.py]                     (tool registry, resource owner map,
                                       [list_tools], [call_tool],
                                       [read_resource], [_get_hint]).

    Python dictionaries are finite maps ([gmap]) where only lookups matter and
    association lists where the iteration order is observable
    ([self.challenges]).  Python integers are [Z].  Functions that read or
    write the progress files run in a state-and-exception monad over the
    [World] (the files of [data_dir] and the wall clock); a call that raises
    keeps what it has written.  Writing a file always succeeds in the model:
    the files of [data_dir] are indexed by username, and the data directory
    is taken to accept a write under every name.  In the source
    [save_progress] prints and swallows an error of the write, so that a
    username whose path cannot be opened (one with a path separator, for
    example) leaves no file; statements about a file being written are
    therefore made for users whose file exists.  The challenges' own
    [handle_tool_call] and [handle_resource_read] are outside the model: the
    server is followed up to the point where it hands over to them. *)

From stdpp Require Import gmap strings list fin_maps pretty sorting.
From Stdlib Require Import ZArith Lia Ascii.

Local Open Scope Z_scope.

(** ** Python prelude *)

Module Py.

(** The exceptions the modelled code can raise. *)
Inductive exn : Type :=
| KeyError (key : Z)
| IndexError
| RecursionError
| ValueError (msg : string)
| Exception (msg : string).

(** [str(e)] as the handlers of [server.py] print it. *)
Definition exn_str (e : exn) : string :=
  match e with
  | KeyError k => pretty k
  | IndexError => "list index out of range"
  | RecursionError => "maximum recursion depth exceeded"
  | ValueError msg => msg
  | Exception msg => msg
  end.

(** A call either returns a value or raises. *)
Inductive outcome (A : Type) : Type :=
| Returns (a : A)
| Raises (e : exn).
Arguments Returns {A} a.
Arguments Raises {A} e.

Definition returned {A} (o : outcome A) : option A :=
  match o with Returns a => Some a | Raises _ => None end.

(** [l[i]] on a Python list: negative indices count from the end, and an
    index outside [-len(l) .. len(l)-1] raises [IndexError]. *)
Definition getitem {A} (l : list A) (i : Z) : outcome A :=
  let n := Z.of_nat (length l) in
  let j := if decide (i < 0) then i + n else i in
  if decide (0 ≤ j < n) then
    match l !! Z.to_nat j with
    | Some x => Returns x
    | None => Raises IndexError
    end
  else Raises IndexError.

(** [str(i)] for an integer is its decimal representation, which is what
    stdpp's [pretty] prints. *)
Definition str (i : Z) : string := pretty i.

(** [x in l] for a list of strings. *)
Definition contains (x : string) (l : list string) : bool :=
  bool_decide (x ∈ l).

End Py.

Import Py.

(** ** challenges/scoring/manager.py *)

Module Scoring.

(** [datetime.now().isoformat()] is abstracted to a reading of a clock that
    advances at every call. *)
Definition timestamp := nat.

Record ChallengeProgress : Type := {
  challenge_id : Z;
  completed : bool;
  score : Z;
  attempts : Z;
  hints_used : Z;
  time_started : option timestamp;
  time_completed : option timestamp;
  best_score : Z;
}.

Record UserProgress : Type := {
  username : string;
  total_score : Z;
  challenges_completed : Z;
  total_attempts : Z;
  badges : list string;
  challenge_progress : gmap Z ChallengeProgress;
  started_at : timestamp;
  last_activity : timestamp;
}.

(** What [json.load] followed by the two dataclass constructors makes of a
    progress file: either they raise (not JSON, unexpected or missing
    fields), or they yield a record. *)
Inductive file : Type :=
| Corrupt
| Stored (p : UserProgress).

(** [get_progress_file] maps a username to [data_dir/<username>_progress.json];
    the files of [data_dir] are therefore indexed by username. *)
Record World : Type := {
  files : gmap string file;
  clock : timestamp;
}.

Definition M (A : Type) : Type := World → outcome A * World.

Definition ret {A} (a : A) : M A := λ w, (Returns a, w).
Definition raise {A} (e : exn) : M A := λ w, (Raises e, w).
Definition bind {A B} (m : M A) (k : A → M B) : M B :=
  λ w, match m w with
       | (Returns a, w') => k a w'
       | (Raises e, w') => (Raises e, w')
       end.

Declare Scope py_scope.
Delimit Scope py_scope with py.
Notation "x <~ c ;; k" := (bind c (λ x, k))
  (at level 100, c at next level, right associativity) : py_scope.
Notation "c ;;; k" := (bind c (λ _, k))
  (at level 100, right associativity) : py_scope.
Local Open Scope py_scope.

Definition datetime_now : M timestamp :=
  λ w, (Returns (clock w), {| files := files w; clock := S (clock w) |}).

Definition read_file (username : string) : M (option file) :=
  λ w, (Returns (files w !! username), w).

Definition write_file (username : string) (p : UserProgress) : M unit :=
  λ w, (Returns (), {| files := <[username := Stored p]> (files w);
                       clock := clock w |}).

(** [d[k]] on the per-challenge dictionary. *)
Definition lookup_cp (d : gmap Z ChallengeProgress) (k : Z) : M ChallengeProgress :=
  match d !! k with
  | Some cp => ret cp
  | None => raise (KeyError k)
  end.

(** Field updates (mutations of the dataclass instances). *)
Definition with_last_activity (t : timestamp) (p : UserProgress) : UserProgress :=
  {| username := username p; total_score := total_score p;
     challenges_completed := challenges_completed p;
     total_attempts := total_attempts p; badges := badges p;
     challenge_progress := challenge_progress p;
     started_at := started_at p; last_activity := t |}.

Definition with_challenge_progress (d : gmap Z ChallengeProgress)
    (p : UserProgress) : UserProgress :=
  {| username := username p; total_score := total_score p;
     challenges_completed := challenges_completed p;
     total_attempts := total_attempts p; badges := badges p;
     challenge_progress := d;
     started_at := started_at p; last_activity := last_activity p |}.

Definition with_total_attempts (n : Z) (p : UserProgress) : UserProgress :=
  {| username := username p; total_score := total_score p;
     challenges_completed := challenges_completed p;
     total_attempts := n; badges := badges p;
     challenge_progress := challenge_progress p;
     started_at := started_at p; last_activity := last_activity p |}.

Definition with_challenges_completed (n : Z) (p : UserProgress) : UserProgress :=
  {| username := username p; total_score := total_score p;
     challenges_completed := n;
     total_attempts := total_attempts p; badges := badges p;
     challenge_progress := challenge_progress p;
     started_at := started_at p; last_activity := last_activity p |}.

Definition with_total_score (n : Z) (p : UserProgress) : UserProgress :=
  {| username := username p; total_score := n;
     challenges_completed := challenges_completed p;
     total_attempts := total_attempts p; badges := badges p;
     challenge_progress := challenge_progress p;
     started_at := started_at p; last_activity := last_activity p |}.

Definition with_badges (b : list string) (p : UserProgress) : UserProgress :=
  {| username := username p; total_score := total_score p;
     challenges_completed := challenges_completed p;
     total_attempts := total_attempts p; badges := b;
     challenge_progress := challenge_progress p;
     started_at := started_at p; last_activity := last_activity p |}.

Definition with_attempts (n : Z) (c : ChallengeProgress) : ChallengeProgress :=
  {| challenge_id := challenge_id c; completed := completed c;
     score := score c; attempts := n; hints_used := hints_used c;
     time_started := time_started c; time_completed := time_completed c;
     best_score := best_score c |}.

Definition with_hints_used (n : Z) (c : ChallengeProgress) : ChallengeProgress :=
  {| challenge_id := challenge_id c; completed := completed c;
     score := score c; attempts := attempts c; hints_used := n;
     time_started := time_started c; time_completed := time_completed c;
     best_score := best_score c |}.

Definition mark_completed (t : timestamp) (c : ChallengeProgress) : ChallengeProgress :=
  {| challenge_id := challenge_id c; completed := true;
     score := score c; attempts := attempts c; hints_used := hints_used c;
     time_started := time_started c; time_completed := Some t;
     best_score := best_score c |}.

Definition with_scores (s b : Z) (c : ChallengeProgress) : ChallengeProgress :=
  {| challenge_id := challenge_id c; completed := completed c;
     score := s; attempts := attempts c; hints_used := hints_used c;
     time_started := time_started c; time_completed := time_completed c;
     best_score := b |}.

(** The record [load_progress] builds when the file does not exist. *)
Definition new_progress (user : string) (t1 t2 : timestamp) : UserProgress :=
  {| username := user; total_score := 0; challenges_completed := 0;
     total_attempts := 0; badges := []; challenge_progress := ∅;
     started_at := t1; last_activity := t2 |}.

(** [ScoreManager.load_progress].  The [except] branch calls
    [self.load_progress(username)] again; [depth] is the number of nested
    calls the interpreter still allows before it raises [RecursionError]
    (which the enclosing handlers do not catch: each of them is already
    past its [try] block). *)
Fixpoint load_progress_at (depth : nat) (user : string) : M UserProgress :=
  f <~ read_file user;;
  match f with
  | None =>
      t1 <~ datetime_now;;
      t2 <~ datetime_now;;
      ret (new_progress user t1 t2)
  | Some (Stored p) => ret p
  | Some Corrupt =>
      match depth with
      | O => raise RecursionError
      | S d => load_progress_at d user
      end
  end.

Section WithRecursionLimit.

(** Frames left on the interpreter stack when [load_progress] is entered. *)
Variable recursion_limit : nat.

Definition load_progress (user : string) : M UserProgress :=
  load_progress_at recursion_limit user.

(** [ScoreManager.save_progress]: a full overwrite of the user's file.  The
    source wraps the write in [try/except Exception] and prints the error;
    the model covers the runs in which the write succeeds. *)
Definition save_progress (p : UserProgress) : M unit :=
  write_file (username p) p.

(** [ScoreManager.start_challenge] *)
Definition start_challenge (user : string) (cid : Z) : M unit :=
  progress <~ load_progress user;;
  progress <~
    (if decide (is_Some (challenge_progress progress !! cid)) then ret progress
     else
       t <~ datetime_now;;
       ret (with_challenge_progress
              (<[cid := {| challenge_id := cid; completed := false; score := 0;
                           attempts := 0; hints_used := 0;
                           time_started := Some t; time_completed := None;
                           best_score := 0 |}]> (challenge_progress progress))
              progress));;
  t <~ datetime_now;;
  save_progress (with_last_activity t progress).

(** [ScoreManager.record_attempt] *)
Definition record_attempt (user : string) (cid : Z) : M unit :=
  progress <~ load_progress user;;
  let progress :=
    match challenge_progress progress !! cid with
    | Some cp =>
        with_total_attempts (total_attempts progress + 1)
          (with_challenge_progress
             (<[cid := with_attempts (attempts cp + 1) cp]> (challenge_progress progress))
             progress)
    | None => progress
    end in
  t <~ datetime_now;;
  save_progress (with_last_activity t progress).

(** [ScoreManager.use_hint]; the returned text is
    ["Hint {hint_level} revealed! (Cost applied to final score)"]. *)
Definition use_hint (user : string) (cid : Z) (hint_level : Z) : M string :=
  progress <~ load_progress user;;
  let progress :=
    match challenge_progress progress !! cid with
    | Some cp =>
        with_challenge_progress
          (<[cid := with_hints_used (hints_used cp + 1) cp]> (challenge_progress progress))
          progress
    | None => progress
    end in
  t <~ datetime_now;;
  save_progress (with_last_activity t progress);;;
  ret ("Hint " +:+ str hint_level +:+ " revealed! (Cost applied to final score)").

(** The values of the per-challenge dictionary. *)
Definition values (d : gmap Z ChallengeProgress) : list ChallengeProgress :=
  (map_to_list d).*2.

(** [ScoreManager._check_badges] *)
Definition _check_badges (progress : UserProgress) : list string :=
  let has b := contains b (badges progress) in
  let vals := values (challenge_progress progress) in
  let first_blood :=
    if bool_decide (challenges_completed progress = 1) && negb (has "first_blood")
    then ["first_blood"] else [] in
  let no_hints :=
    forallb (λ cp, bool_decide (hints_used cp = 0)) (filter (λ cp, completed cp = true) vals) in
  let no_hints_hero :=
    if no_hints && bool_decide (3 ≤ challenges_completed progress)
       && negb (has "no_hints_hero")
    then ["no_hints_hero"] else [] in
  let speed_demon :=
    existsb (λ cp, completed cp && bool_decide (attempts cp ≤ 5)) vals in
  let speed :=
    if speed_demon && negb (has "speed_demon") then ["speed_demon"] else [] in
  let halfway :=
    if bool_decide (4 ≤ challenges_completed progress) && negb (has "halfway")
    then ["halfway"] else [] in
  let champion :=
    if bool_decide (challenges_completed progress = 8) && negb (has "champion")
    then ["champion"] else [] in
  let perfect :=
    forallb (λ cp, bool_decide (score cp = best_score cp))
            (filter (λ cp, completed cp = true) vals) in
  let perfect_score :=
    if perfect && bool_decide (5 ≤ challenges_completed progress)
       && negb (has "perfect_score")
    then ["perfect_score"] else [] in
  first_blood ++ no_hints_hero ++ speed ++ halfway ++ champion ++ perfect_score.

(** The dictionary [complete_challenge] returns. *)
Record Completion : Type := {
  r_score : Z;
  r_total_score : Z;
  r_new_badges : list string;
  r_challenges_completed : Z;
}.

(** [ScoreManager.complete_challenge].  [start_challenge] works on a
    record of its own, loaded from the file; the [progress] object held
    here is not touched by it.  [list(set(badges))] keeps one copy of
    every badge, in an order Python does not specify: only membership in
    the stored list is meaningful. *)
Definition complete_challenge (user : string) (cid : Z) (new_score : Z)
    : M Completion :=
  progress <~ load_progress user;;
  (if decide (is_Some (challenge_progress progress !! cid)) then ret ()
   else start_challenge user cid);;;
  cprog <~ lookup_cp (challenge_progress progress) cid;;
  progress <~
    (if negb (completed cprog) || bool_decide (best_score cprog < new_score) then
       st <~
         (if negb (completed cprog) then
            t <~ datetime_now;;
            ret (with_challenges_completed (challenges_completed progress + 1) progress,
                 mark_completed t cprog)
          else ret (progress, cprog));;
       let '(progress, cprog) := st in
       let old_score := score cprog in
       let cprog := with_scores new_score (Z.max (best_score cprog) new_score) cprog in
       ret (with_total_score (total_score progress + (new_score - old_score))
              (with_challenge_progress
                 (<[cid := cprog]> (challenge_progress progress)) progress))
     else ret progress);;
  let new_badges := _check_badges progress in
  let progress := with_badges (remove_dups (badges progress ++ new_badges)) progress in
  t <~ datetime_now;;
  save_progress (with_last_activity t progress);;;
  ret {| r_score := new_score;
         r_total_score := total_score progress;
         r_new_badges := new_badges;
         r_challenges_completed := challenges_completed progress |}.

End WithRecursionLimit.

(** One entry of the leaderboard: the dictionary with the keys ["username"],
    ["total_score"], ["challenges_completed"] and ["badges"] (a count). *)
Record LeaderboardRow : Type := {
  lb_username : string;
  lb_total_score : Z;
  lb_challenges_completed : Z;
  lb_badges : Z;
}.

(** The entry read off a file that holds the record [p]. *)
Definition row_of (p : UserProgress) : LeaderboardRow :=
  {| lb_username := username p;
     lb_total_score := total_score p;
     lb_challenges_completed := challenges_completed p;
     lb_badges := Z.of_nat (length (badges p)) |}.

(** [leaderboard.sort(key=lambda x: x["total_score"], reverse=True)]: a
    stable sort, highest total first; entries with equal totals keep their
    relative order. *)
Fixpoint insert_row (r : LeaderboardRow) (l : list LeaderboardRow)
    : list LeaderboardRow :=
  match l with
  | [] => [r]
  | r' :: l' =>
      if decide (lb_total_score r < lb_total_score r') then r' :: insert_row r l'
      else r :: l
  end.

Definition sort_rows (l : list LeaderboardRow) : list LeaderboardRow :=
  foldr insert_row [] l.

(** [l[:limit]]: a negative [limit] counts from the end. *)
Definition slice_to {A} (limit : Z) (l : list A) : list A :=
  if decide (0 ≤ limit) then take (Z.to_nat limit) l
  else take (Z.to_nat (Z.of_nat (length l) + limit)) l.

(** [ScoreManager.get_leaderboard].  [listing] is what
    [data_dir.glob("*_progress.json")] yields, as usernames, in the order the
    file system gives them.  The function reads the four keys off the raw
    JSON of each file.  For a file that holds a record these are the fields
    of the record.  For a file that [load_progress] rejects, the raw JSON is
    not part of the [World] (it may still carry the four keys, with values of
    any type); the model gives no answer ([None]) when the listing contains
    such a file, or a name without a file. *)
Definition get_leaderboard (listing : list string) (limit : Z) (w : World)
    : option (list LeaderboardRow) :=
  rows ← mapM (λ user, match files w !! user with
                       | Some (Stored p) => Some (row_of p)
                       | _ => None
                       end) listing;
  Some (slice_to limit (sort_rows rows)).

Definition empty_world : World := {| files := ∅; clock := 0%nat |}.

End Scoring.

(** ** challenges/base.py *)

Module Base.

Record Hint : Type := {
  level : Z;
  text : string;
  points_cost : Z;
}.

(** The fields of [ChallengeInfo] the modelled code reads. *)
Record ChallengeInfo : Type := {
  id : Z;
  title : string;
  points : Z;
  hints : list Hint;
}.

(** An MCP tool declaration; the schema is opaque to the server. *)
Record Tool : Type := {
  name : string;
  description : string;
  inputSchema : string;
}.

(** An MCP resource declaration. *)
Record Resource : Type := {
  uri : string;
  resource_name : string;
  mimeType : string;
}.

(** A challenge instance: the attributes [BaseChallenge.__init__] sets and
    what the abstract [get_tools] and [get_resources] return for it. *)
Record Challenge : Type := {
  info : ChallengeInfo;
  attempts : Z;
  hints_used : Z;
  get_tools : list Tool;
  get_resources : list Resource;
}.

Definition with_hints_used (n : Z) (self : Challenge) : Challenge :=
  {| info := info self; attempts := attempts self; hints_used := n;
     get_tools := get_tools self; get_resources := get_resources self |}.

(** [BaseChallenge.get_hint]: returns the outcome of the call and the
    challenge as the call leaves it. *)
Definition get_hint (self : Challenge) (lvl : Z)
    : outcome (option Hint) * Challenge :=
  if decide (lvl ≤ Z.of_nat (length (hints (info self)))) then
    let self := with_hints_used (hints_used self + 1) self in
    (match getitem (hints (info self)) (lvl - 1) with
     | Returns h => Returns (Some h)
     | Raises e => Raises e
     end, self)
  else (Returns None, self).

(** [BaseChallenge.calculate_score] *)
Definition calculate_score (self : Challenge) (base_points : Z) : Z :=
  let penalty := attempts self * 5 + hints_used self * 10 in
  Z.max (base_points - penalty) (base_points `div` 4).

End Base.

(** ** server.py *)

Module Server.

Import Base.

(** [self.challenges] is a dictionary from unit id to challenge; its
    iteration order (insertion order) decides the exact-match routing, so
    it is kept as an association list.  Python dictionaries hold a key
    once: well-formed tables satisfy [NoDup (d.*1)]. *)
Fixpoint dict_get {A} (d : list (Z * A)) (k : Z) : option A :=
  match d with
  | [] => None
  | (k', v) :: d => if decide (k' = k) then Some v else dict_get d k
  end.

Fixpoint dict_set {A} (d : list (Z * A)) (k : Z) (v : A) : list (Z * A) :=
  match d with
  | [] => [(k, v)]
  | (k', v') :: d =>
      if decide (k' = k) then (k, v) :: d else (k', v') :: dict_set d k v
  end.

(** Monadic left fold: a loop whose body may raise. *)
Fixpoint foldlM {A B} (f : A → B → outcome A) (a : A) (l : list B) : outcome A :=
  match l with
  | [] => Returns a
  | x :: l =>
      match f a x with
      | Returns a' => foldlM f a' l
      | Raises e => Raises e
      end
  end.

Record VulnMCPServer : Type := {
  challenges : list (Z * Challenge);
  _tool_registry : gmap string (Z * string);
  _unique_tool_registry : gmap string (Z * string);
  _namespaced_tools : list Tool;
  _resource_owner : gmap (string * string) (option Z);
}.

(** *** [_build_tool_registry] *)

(** [f"lvl{cid}__{t.name}"] *)
Definition ns_name (cid : Z) (bare : string) : string :=
  "lvl" +:+ str cid +:+ "__" +:+ bare.

(** [name_counts[t.name] = name_counts.get(t.name, 0) + 1] for every tool. *)
Definition count_names (name_counts : gmap string Z) (tools : list Tool)
    : gmap string Z :=
  foldl (λ nc t, <[name t := default 0 (nc !! name t) + 1]> nc) name_counts tools.

(** First loop: the counters after all challenges have been visited. *)
Definition name_counts_of (chs : list (Z * Challenge)) : gmap string Z :=
  foldl (λ nc c, count_names nc (get_tools c.2)) ∅ chs.

(** First loop: [per_challenge_tools]. *)
Definition per_challenge_tools (chs : list (Z * Challenge)) : list (Z * list Tool) :=
  (λ c, (c.1, get_tools c.2)) <$> chs.

(** The three tables the second loop fills. *)
Record Registry : Type := {
  reg_tools : gmap string (Z * string);
  reg_unique : gmap string (Z * string);
  reg_namespaced : list Tool;
}.

Definition empty_registry : Registry :=
  {| reg_tools := ∅; reg_unique := ∅; reg_namespaced := [] |}.

(** Body of the inner loop of the second pass. *)
Definition expose (name_counts : gmap string Z) (cid : Z) (r : Registry) (t : Tool)
    : Registry :=
  let ns := ns_name cid (name t) in
  {| reg_tools := <[ns := (cid, name t)]> (reg_tools r);
     reg_namespaced :=
       reg_namespaced r ++
       [{| name := ns; description := description t; inputSchema := inputSchema t |}];
     reg_unique :=
       if decide (default 0 (name_counts !! name t) = 1)
       then <[name t := (cid, name t)]> (reg_unique r)
       else reg_unique r |}.

Definition expose_all (name_counts : gmap string Z) (r : Registry)
    (pct : list (Z * list Tool)) : Registry :=
  foldl (λ r c, foldl (expose name_counts c.1) r c.2) r pct.

Definition _build_tool_registry (chs : list (Z * Challenge)) : Registry :=
  expose_all (name_counts_of chs) empty_registry (per_challenge_tools chs).

Section WithUrlparse.

(** [urllib.parse.urlparse], reduced to the two components the server
    reads, [(p.scheme, p.netloc)]; it raises [ValueError] on some
    malformed addresses. *)
Variable urlparse : string → outcome (string * string).

(** *** [_build_resource_owner_map] *)

(** Body of the inner loop. *)
Definition claim_key (cid : Z) (owner : gmap (string * string) (option Z))
    (r : Resource) : outcome (gmap (string * string) (option Z)) :=
  match urlparse (uri r) with
  | Raises e => Raises e
  | Returns key =>
      Returns
        (match owner !! key with
         | Some o =>
             if decide (o ≠ Some cid) then <[key := None]> owner
             else <[key := Some cid]> owner
         | None => <[key := Some cid]> owner
         end)
  end.

(** The automatic pass over all challenges. *)
Definition claim_all (owner : gmap (string * string) (option Z))
    (chs : list (Z * Challenge)) : outcome (gmap (string * string) (option Z)) :=
  foldlM (λ owner c, foldlM (claim_key c.1) owner (get_resources c.2)) owner chs.

Definition _build_resource_owner_map (chs : list (Z * Challenge))
    : outcome (gmap (string * string) (option Z)) :=
  match claim_all ∅ chs with
  | Raises e => Raises e
  | Returns owner => Returns (<[("vulnmcp", "docs") := Some 2]> owner)
  end.

(** [VulnMCPServer.__init__], given the challenge table. *)
Definition __init__ (chs : list (Z * Challenge)) : outcome VulnMCPServer :=
  let r := _build_tool_registry chs in
  match _build_resource_owner_map chs with
  | Raises e => Raises e
  | Returns owner =>
      Returns {| challenges := chs;
                 _tool_registry := reg_tools r;
                 _unique_tool_registry := reg_unique r;
                 _namespaced_tools := reg_namespaced r;
                 _resource_owner := owner |}
  end.

(** *** [read_resource] *)

(** What the [try] block of [read_resource] decides before it hands over
    to a challenge. *)
Inductive route : Type :=
| Welcome
| Delegate (cid : Z) (ch : Challenge)
| NotFound.

Definition declares (address : string) (c : Z * Challenge) : Prop :=
  address ∈ uri <$> get_resources c.2.

Global Instance declares_dec address c : Decision (declares address c).
Proof. unfold declares. apply _. Defined.

Definition route_resource (self : VulnMCPServer) (uri_str : string)
    : outcome route :=
  if decide (uri_str = "vulnmcp://welcome") then Returns Welcome
  else
    match list_find (declares uri_str) (challenges self) with
    | Some (_, (cid, ch)) => Returns (Delegate cid ch)
    | None =>
        match urlparse uri_str with
        | Raises e => Raises e
        | Returns key =>
            match default None (_resource_owner self !! key) with
            | Some owner =>
                match dict_get (challenges self) owner with
                | Some ch => Returns (Delegate owner ch)
                | None => Raises (KeyError owner)
                end
            | None => Returns NotFound
            end
        end
    end.

Definition _get_welcome_text : string :=
  "Welcome to VulnMCP! Use vulnmcp_help(action='challenges') to start.".

(** [read_resource]; [handle_resource_read cid ch uri] stands for the
    outcome of [await challenge.handle_resource_read(uri_str)] on the
    challenge registered under [cid]. *)
Definition read_resource
    (handle_resource_read : Z → Challenge → string → outcome string)
    (self : VulnMCPServer) (uri_str : string) : string :=
  match route_resource self uri_str with
  | Returns Welcome => _get_welcome_text
  | Returns (Delegate cid ch) =>
      match handle_resource_read cid ch uri_str with
      | Returns content => content
      | Raises e => "❌ Error reading resource: " +:+ exn_str e
      end
  | Returns NotFound => "❌ Resource not found: " +:+ uri_str
  | Raises e => "❌ Error reading resource: " +:+ exn_str e
  end.

End WithUrlparse.

(** *** [_get_hint] *)

Definition with_challenges (chs : list (Z * Challenge)) (self : VulnMCPServer)
    : VulnMCPServer :=
  {| challenges := chs;
     _tool_registry := _tool_registry self;
     _unique_tool_registry := _unique_tool_registry self;
     _namespaced_tools := _namespaced_tools self;
     _resource_owner := _resource_owner self |}.

Definition newline : string := String (Ascii.ascii_of_nat 10) EmptyString.

(** [VulnMCPServer._get_hint]: the text of the single [TextContent] it
    returns (or the exception that escapes to [call_tool]), the server and
    the progress files as the call leaves them. *)
Definition _get_hint (recursion_limit : nat) (self : VulnMCPServer)
    (challenge_id lvl : Z) (w : Scoring.World)
    : outcome string * VulnMCPServer * Scoring.World :=
  match dict_get (challenges self) challenge_id with
  | None => (Returns ("❌ Invalid challenge ID: " +:+ str challenge_id), self, w)
  | Some challenge =>
      let '(r, challenge) := get_hint challenge lvl in
      let self := with_challenges (dict_set (challenges self) challenge_id challenge) self in
      match r with
      | Raises e => (Raises e, self, w)
      | Returns None => (Returns ("❌ Invalid hint level: " +:+ str lvl), self, w)
      | Returns (Some hint) =>
          match Scoring.use_hint recursion_limit "player" challenge_id lvl w with
          | (Raises e, w) => (Raises e, self, w)
          | (Returns _, w) =>
              (Returns ("💡 HINT L" +:+ str challenge_id +:+ "." +:+ str lvl
                        +:+ newline +:+ newline +:+ text hint), self, w)
          end
      end
  end.

(** *** [call_tool] *)

(** What the [try] block of [call_tool] decides before it hands over. *)
Inductive tool_route : Type :=
| HelpTool
| HintTool
| ForwardTool (cid : Z) (ch : Challenge) (orig_name : string)
| UnknownTool.

(** [self.challenges[cid].handle_tool_call(orig_name, arguments)], up to the
    call. *)
Definition forward_tool (self : VulnMCPServer) (entry : Z * string)
    : outcome tool_route :=
  match dict_get (challenges self) entry.1 with
  | Some ch => Returns (ForwardTool entry.1 ch entry.2)
  | None => Raises (KeyError entry.1)
  end.

Definition route_tool (self : VulnMCPServer) (tool_name : string)
    : outcome tool_route :=
  if decide (tool_name = "vulnmcp_help") then Returns HelpTool
  else if decide (tool_name = "vulnmcp_hint") then Returns HintTool
  else
    match _tool_registry self !! tool_name with
    | Some entry => forward_tool self entry
    | None =>
        match _unique_tool_registry self !! tool_name with
        | Some entry => forward_tool self entry
        | None => Returns UnknownTool
        end
    end.

(** [call_tool]: the texts of the [TextContent] items it returns.
    [run_help] and [run_hint] stand for the outcomes of
    [await self._help(...)] and [await self._get_hint(...)] with the arguments
    taken from the request, [handle_tool_call cid ch name] for the outcome of
    the challenge's own handler. *)
Definition call_tool (run_help run_hint : outcome (list string))
    (handle_tool_call : Z → Challenge → string → outcome (list string))
    (self : VulnMCPServer) (tool_name : string) : list string :=
  let body :=
    match route_tool self tool_name with
    | Returns HelpTool => run_help
    | Returns HintTool => run_hint
    | Returns (ForwardTool cid ch orig_name) => handle_tool_call cid ch orig_name
    | Returns UnknownTool => Returns ["❌ Unknown tool: " +:+ tool_name]
    | Raises e => Raises e
    end in
  match body with
  | Returns texts => texts
  | Raises e => ["❌ Error executing tool: " +:+ exn_str e]
  end.

(** *** [list_tools] *)

(** The two tools of the server itself; their schemas are written as the
    Python literals of the source. *)
Definition help_tool : Tool :=
  {| name := "vulnmcp_help";
     description :=
       "🎮 VulnMCP Help & Information" +:+ newline +:+ newline +:+
       "Get help, see challenges, check progress." +:+ newline;
     inputSchema :=
       "{'type': 'object', 'properties': {'action': {'type': 'string', " +:+
       "'description': 'help | challenges | progress | leaderboard'}}}" |}.

Definition hint_tool : Tool :=
  {| name := "vulnmcp_hint";
     description := "Get a hint for a specific challenge (costs points!)";
     inputSchema :=
       "{'type': 'object', 'properties': {'challenge_id': {'type': 'integer', " +:+
       "'description': 'Challenge ID (1-8)'}, 'level': {'type': 'integer', " +:+
       "'description': 'Hint level (1-3)'}}, " +:+
       "'required': ['challenge_id', 'level']}" |}.

(** [sorted(self._unique_tool_registry.items(), key=lambda x: x[0])]: the
    keys of a dictionary are distinct, so the order is determined by them. *)
Definition sorted_aliases (self : VulnMCPServer) : list (string * (Z * string)) :=
  merge_sort (λ a b, String.le a.1 b.1) (map_to_list (_unique_tool_registry self)).

(** The inner loop of [list_tools]: the first tool of the challenge with the
    given name, if any. *)
Definition original_tool (ch : Challenge) (alias : string) : list Tool :=
  match list_find (λ t, name t = alias) (get_tools ch) with
  | Some (_, t) => [t]
  | None => []
  end.

Definition list_tools (self : VulnMCPServer) : outcome (list Tool) :=
  foldlM (λ tools item,
            match dict_get (challenges self) item.2.1 with
            | Some ch => Returns (tools ++ original_tool ch item.1)
            | None => Raises (KeyError item.2.1)
            end)
         ([help_tool; hint_tool] ++ _namespaced_tools self)
         (sorted_aliases self).

End Server.

(** ** Vocabulary of the statements *)

Module Progress.

Import Scoring.

(** The record stored for a user, when the file exists and loads. *)
Definition stored (w : World) (user : string) : option UserProgress :=
  match files w !! user with
  | Some (Stored p) => Some p
  | _ => None
  end.

(** The stored per-unit entry of a user. *)
Definition entry (w : World) (user : string) (cid : Z) : option ChallengeProgress :=
  p ← stored w user; challenge_progress p !! cid.

(** What a unit contributes to the total: its current score once completed. *)
Definition contribution (cp : ChallengeProgress) : Z :=
  if completed cp then score cp else 0.

(** Sum of the current scores of the completed entries. *)
Definition completed_sum (d : gmap Z ChallengeProgress) : Z :=
  map_fold (λ _ cp acc, contribution cp + acc) 0 d.

(** Current score and best score agree, and a unit that was never completed
    still has the score 0 it was started with. *)
Definition entry_ok (cp : ChallengeProgress) : Prop :=
  score cp = best_score cp ∧ (completed cp = false → score cp = 0).

Definition record_ok (p : UserProgress) : Prop :=
  map_Forall (λ _ cp, entry_ok cp) (challenge_progress p) ∧
  total_score p = completed_sum (challenge_progress p).

Definition world_ok (w : World) : Prop :=
  ∀ user p, files w !! user = Some (Stored p) → record_ok p.

(** A call wrote nothing, or overwrote one file with a well-formed record. *)
Definition writes_ok (w w' : World) : Prop :=
  files w' = files w ∨
  ∃ user p, files w' = <[user := Stored p]> (files w) ∧ record_ok p.

(** The four mutating operations of the progress store. *)
Inductive op : Type :=
| Start (user : string) (cid : Z)
| Attempt (user : string) (cid : Z)
| UseHint (user : string) (cid : Z) (hint_level : Z)
| Complete (user : string) (cid : Z) (new_score : Z).

(** The world after a call; a call that raises leaves behind what it had
    already written. *)
Definition run_op (recursion_limit : nat) (o : op) (w : World) : World :=
  match o with
  | Start user cid => (start_challenge recursion_limit user cid w).2
  | Attempt user cid => (record_attempt recursion_limit user cid w).2
  | UseHint user cid lvl => (use_hint recursion_limit user cid lvl w).2
  | Complete user cid s => (complete_challenge recursion_limit user cid s w).2
  end.

Definition run_ops (recursion_limit : nat) (ops : list op) (w : World) : World :=
  foldl (λ w o, run_op recursion_limit o w) w ops.

(** The summaries of the example scenario, as the code produces them. *)
Definition first_summary : Completion :=
  {| r_score := 200; r_total_score := 200;
     r_new_badges := ["first_blood"; "speed_demon"];
     r_challenges_completed := 1 |}.

Definition second_summary : Completion :=
  {| r_score := 150; r_total_score := 200; r_new_badges := [];
     r_challenges_completed := 1 |}.

(** The summary the example scenario expects of the first call. *)
Definition expected_first_summary : Completion :=
  {| r_score := 200; r_total_score := 200; r_new_badges := ["first_blood"];
     r_challenges_completed := 1 |}.

(** A player who has started unit 3 and nothing else. *)
Definition started_world : World :=
  run_ops 1000 [Start "player" 3] empty_world.

(** A player who has completed unit 3 with score 100. *)
Definition completed_world : World :=
  run_ops 1000 [Start "player" 3; Complete "player" 3 100] empty_world.

(** The claim on resubmission, at one input: after a submission of [s1] and
    a second one of [s2 ≤ s1], the best score is [s1] and the second call did
    not change the total. *)
Definition resubmission_keeps_first (recursion_limit : nat) (user : string)
    (cid s1 s2 : Z) (w : World) : Prop :=
  let w1 := (complete_challenge recursion_limit user cid s1 w).2 in
  let w2 := (complete_challenge recursion_limit user cid s2 w1).2 in
  best_score <$> entry w2 user cid = Some s1 ∧
  total_score <$> stored w2 user = total_score <$> stored w1 user.

Definition nonnegative (o : op) : Prop :=
  match o with
  | Complete _ _ s => 0 ≤ s
  | _ => True
  end.

(** *** Vocabulary of the further properties *)

(** Every file that holds a record is the file of the record's user. *)
Definition consistent (w : World) : Prop :=
  ∀ user p, files w !! user = Some (Stored p) → username p = user.

(** Sum of a quantity over the per-unit entries. *)
Definition sum_over (f : ChallengeProgress → Z) (d : gmap Z ChallengeProgress) : Z :=
  map_fold (λ _ cp acc, f cp + acc) 0 d.

(** The counters of a record agree with its entries: the number of completed
    units and the number of recorded attempts. *)
Definition counters_ok (p : UserProgress) : Prop :=
  challenges_completed p =
    sum_over (λ cp, if completed cp then 1 else 0) (challenge_progress p) ∧
  total_attempts p = sum_over attempts (challenge_progress p).

(** The badges tied to the number of completed units are held once that
    number is reached. *)
Definition milestones_ok (p : UserProgress) : Prop :=
  (1 ≤ challenges_completed p → "first_blood" ∈ badges p) ∧
  (4 ≤ challenges_completed p → "halfway" ∈ badges p) ∧
  (8 ≤ challenges_completed p → "champion" ∈ badges p).

Definition perfect_ok (p : UserProgress) : Prop :=
  5 ≤ challenges_completed p → "perfect_score" ∈ badges p.

(** The entry [start_challenge] creates. *)
Definition fresh_entry (cid : Z) (t : timestamp) : ChallengeProgress :=
  {| challenge_id := cid; completed := false; score := 0; attempts := 0;
     hints_used := 0; time_started := Some t; time_completed := None;
     best_score := 0 |}.

(** The record after each kind of change the operations make to it, before
    [last_activity] is stamped. *)
Definition started (p : UserProgress) (cid : Z) (t : timestamp) : UserProgress :=
  with_challenge_progress (<[cid := fresh_entry cid t]> (challenge_progress p)) p.

Definition attempted (p : UserProgress) (cid : Z) (cp : ChallengeProgress)
    : UserProgress :=
  with_total_attempts (total_attempts p + 1)
    (with_challenge_progress
       (<[cid := with_attempts (attempts cp + 1) cp]> (challenge_progress p)) p).

Definition hinted (p : UserProgress) (cid : Z) (cp : ChallengeProgress)
    : UserProgress :=
  with_challenge_progress
    (<[cid := Scoring.with_hints_used (hints_used cp + 1) cp]> (challenge_progress p)) p.

Definition updated (p : UserProgress) (cid : Z) (cp : ChallengeProgress)
    (s : Z) (t : timestamp) : UserProgress :=
  if completed cp then
    if bool_decide (best_score cp < s) then
      with_total_score (total_score p + (s - score cp))
        (with_challenge_progress
           (<[cid := with_scores s (best_score cp `max` s) cp]> (challenge_progress p))
           p)
    else p
  else
    with_total_score (total_score p + (s - score cp))
      (with_challenge_progress
         (<[cid := with_scores s (best_score (mark_completed t cp) `max` s)
                     (mark_completed t cp)]> (challenge_progress p))
         (with_challenges_completed (challenges_completed p + 1) p)).

Definition awarded (q : UserProgress) : UserProgress :=
  with_badges (remove_dups (badges q ++ _check_badges q)) q.

(** How one call transforms the record it loaded into the record it saves. *)
Inductive record_step (o : op) : UserProgress → UserProgress → Prop :=
| step_touch p t :
    record_step o p (with_last_activity t p)
| step_start p cid t0 t :
    challenge_progress p !! cid = None →
    record_step o p (with_last_activity t (started p cid t0))
| step_attempt p cid cp t :
    challenge_progress p !! cid = Some cp →
    record_step o p (with_last_activity t (attempted p cid cp))
| step_hint p cid cp t :
    challenge_progress p !! cid = Some cp →
    record_step o p (with_last_activity t (hinted p cid cp))
| step_complete user p cid cp s t0 t :
    o = Complete user cid s →
    challenge_progress p !! cid = Some cp →
    record_step o p (with_last_activity t (awarded (updated p cid cp s t0))).

(** The record a call on [user] starts from: the stored one, or a new one
    when there is no file. *)
Definition loaded (w : World) (user : string) (p : UserProgress) : Prop :=
  files w !! user = Some (Stored p) ∨
  (files w !! user = None ∧ ∃ t1 t2, p = new_progress user t1 t2).

(** A call wrote nothing, or saved one transformed record under its user. *)
Definition op_effect (o : op) (w w' : World) : Prop :=
  files w' = files w ∨
  ∃ user p p', loaded w user p ∧ record_step o p p' ∧
               files w' = <[username p := Stored p']> (files w).

(** Progress that is never lost: a unit stays completed, and its best score
    and counters do not decrease. *)
Definition entry_le (cp cp' : ChallengeProgress) : Prop :=
  challenge_id cp' = challenge_id cp ∧
  (completed cp = true → completed cp' = true) ∧
  best_score cp ≤ best_score cp' ∧
  attempts cp ≤ attempts cp' ∧
  hints_used cp ≤ hints_used cp'.

Definition record_le (p p' : UserProgress) : Prop :=
  username p' = username p ∧
  started_at p' = started_at p ∧
  (∀ b, b ∈ badges p → b ∈ badges p') ∧
  ∀ cid cp, challenge_progress p !! cid = Some cp →
    ∃ cp', challenge_progress p' !! cid = Some cp' ∧ entry_le cp cp'.

Definition world_le (w w' : World) : Prop :=
  ∀ user p, files w !! user = Some (Stored p) →
    ∃ p', files w' !! user = Some (Stored p') ∧ record_le p p'.

(** The order of the leaderboard: the total score does not increase. *)
Definition higher_first (a b : LeaderboardRow) : Prop :=
  lb_total_score b ≤ lb_total_score a.

(** The six badge identifiers. *)
Definition badge_names : list string :=
  ["first_blood"; "no_hints_hero"; "speed_demon"; "halfway"; "champion";
   "perfect_score"].

End Progress.

Module Dispatch.

Import Base Server.

(** All bare operation names, over all challenges, with repetitions. *)
Definition all_names (chs : list (Z * Challenge)) : list string :=
  c ← chs; name <$> get_tools c.2.

(** The global occurrence count of a bare name. *)
Definition occurrences (n : string) (chs : list (Z * Challenge)) : nat :=
  length (filter (λ m, m = n) (all_names chs)).

(** The (unit id, bare name) pairs in the order the second loop of
    [_build_tool_registry] visits them. *)
Definition declared_pairs (pct : list (Z * list Tool)) : list (Z * string) :=
  c ← pct; (λ t, (c.1, name t)) <$> c.2.

(** The (unit id, resource) pairs in the order [_build_resource_owner_map]
    visits them. *)
Definition declared_resources (chs : list (Z * Challenge)) : list (Z * Resource) :=
  c ← chs; (λ r, (c.1, r)) <$> get_resources c.2.

(** Challenge [cid] declares a resource whose address parses to [key]. *)
Definition declares_under (urlparse : string → outcome (string * string))
    (chs : list (Z * Challenge)) (cid : Z) (key : string * string) : Prop :=
  ∃ ch r, (cid, ch) ∈ chs ∧ r ∈ get_resources ch ∧ urlparse (uri r) = Returns key.

(** The unit ids of the visited resources whose address parses to [key], in
    visiting order. *)
Definition claimants (urlparse : string → outcome (string * string))
    (l : list (Z * Resource)) (key : string * string) : list Z :=
  omap (λ pr, match urlparse (uri pr.2) with
              | Returns k => if decide (k = key) then Some pr.1 else None
              | Raises _ => None
              end) l.

(** Every declared address parses. *)
Definition addresses_parse (urlparse : string → outcome (string * string))
    (chs : list (Z * Challenge)) : Prop :=
  ∀ pr, pr ∈ declared_resources chs → is_Some (returned (urlparse (uri pr.2))).

(** The value a key of the owner map takes when one more challenge claims it. *)
Definition claim (v : option (option Z)) (cid : Z) : option (option Z) :=
  match v with
  | Some o => if decide (o ≠ Some cid) then Some None else Some (Some cid)
  | None => Some (Some cid)
  end.

(** No character of the string is an underscore. *)
Fixpoint no_underscore (s : string) : Prop :=
  match s with
  | EmptyString => True
  | String c rest => c ≠ "_"%char ∧ no_underscore rest
  end.

(** A model of [urlparse] on addresses of the shape [scheme://netloc/path],
    used to evaluate the server on concrete addresses: the scheme is what
    precedes the first colon, the network location what follows the two
    slashes up to the next [/], [?] or [#]. *)
Fixpoint split_scheme (s : string) : option (string * string) :=
  match s with
  | EmptyString => None
  | String c rest =>
      if Ascii.eqb c ":"%char then Some (EmptyString, rest)
      else match split_scheme rest with
           | Some (scheme, rest') => Some (String c scheme, rest')
           | None => None
           end
  end.

Fixpoint take_netloc (s : string) : string :=
  match s with
  | EmptyString => EmptyString
  | String c rest =>
      if Ascii.eqb c "/"%char || Ascii.eqb c "?"%char || Ascii.eqb c "#"%char then EmptyString
      else String c (take_netloc rest)
  end.

Definition netloc_of (rest : string) : string :=
  match rest with
  | String a (String b r) =>
      if Ascii.eqb a "/"%char && Ascii.eqb b "/"%char then take_netloc r else EmptyString
  | _ => EmptyString
  end.

Definition urlparse_model (address : string) : outcome (string * string) :=
  match split_scheme address with
  | Some (scheme, rest) => Returns (scheme, netloc_of rest)
  | None => Returns (EmptyString, netloc_of address)
  end.

(** A challenge that declares the given bare tool names and resource
    addresses, with the given hints. *)
Definition challenge_with (hs : list Hint) (tools uris : list string) : Challenge :=
  {| info := {| id := 0; title := EmptyString; points := 100; hints := hs |};
     attempts := 0; hints_used := 0;
     get_tools :=
       (λ n, {| name := n; description := EmptyString; inputSchema := "{}" |})
         <$> tools;
     get_resources :=
       (λ a, {| uri := a; resource_name := EmptyString; mimeType := "text/plain" |})
         <$> uris |}.

(** Two challenges that both declare the operation "check". *)
Definition check_twice : list (Z * Challenge) :=
  [(1, challenge_with [] ["check"; "submit_a"] []);
   (2, challenge_with [] ["check"] [])].

(** One challenge that declares the operation "check" twice. *)
Definition check_duplicated : list (Z * Challenge) :=
  [(1, challenge_with [] ["check"; "check"] [])].

(** Two challenges that declare resources under [vulnmcp://docs]. *)
Definition shared_docs : list (Z * Challenge) :=
  [(2, challenge_with [] [] ["vulnmcp://docs/public/welcome"]);
   (8, challenge_with [] [] ["vulnmcp://docs/guide"])].


(** A challenge with three hints. *)
Definition three_hints : list Hint :=
  [{| level := 1; text := "look at the schema"; points_cost := 10 |};
   {| level := 2; text := "try a separator"; points_cost := 20 |};
   {| level := 3; text := "append a second command"; points_cost := 30 |}].

(** Challenge [cid] declares a tool with the bare name [bare]. *)
Definition declares_tool (chs : list (Z * Challenge)) (cid : Z) (bare : string) : Prop :=
  ∃ ch, (cid, ch) ∈ chs ∧ bare ∈ name <$> get_tools ch.

(** The name is the namespaced name of a declared tool. *)
Definition namespaced_in (chs : list (Z * Challenge)) (tool_name : string) : Prop :=
  ∃ cid bare, declares_tool chs cid bare ∧ tool_name = ns_name cid bare.

(** Two challenges with keys of their own. *)
Definition separate_keys : list (Z * Challenge) :=
  [(5, challenge_with [] [] ["vault://safe/index"]);
   (6, challenge_with [] [] ["notes://pad/1"; "notes://pad/2"])].

End Dispatch.

(** * Properties *)

(** ** The progress store *)

Module ScoringProps.

Import Scoring Progress.
Local Open Scope py_scope.

Section Loading.

Variable recursion_limit : nat.

Lemma load_progress_stored user p w :
  files w !! user = Some (Stored p) →
  load_progress recursion_limit user w = (Returns p, w).
Proof.
  intros H. unfold load_progress.
  destruct recursion_limit; simpl; unfold bind, read_file; rewrite H; reflexivity.
Qed.

Lemma load_progress_missing user w :
  files w !! user = None →
  load_progress recursion_limit user w =
    (Returns (new_progress user (clock w) (S (clock w))),
     {| files := files w; clock := S (S (clock w)) |}).
Proof.
  intros H. unfold load_progress.
  destruct recursion_limit; simpl; unfold bind, read_file; rewrite H; reflexivity.
Qed.

Lemma load_progress_at_corrupt depth user w :
  files w !! user = Some Corrupt →
  load_progress_at depth user w = (Raises RecursionError, w).
Proof.
  intros H. induction depth as [|d IH]; simpl; unfold bind, read_file; rewrite H.
  - reflexivity.
  - exact IH.
Qed.

End Loading.

(** *** Sums over the per-unit dictionary *)

Lemma completed_sum_empty : completed_sum ∅ = 0.
Proof. unfold completed_sum. by rewrite map_fold_empty. Qed.

Lemma completed_sum_fresh (d : gmap Z ChallengeProgress) i x :
  d !! i = None →
  completed_sum (<[i := x]> d) = contribution x + completed_sum d.
Proof.
  intros H. unfold completed_sum.
  rewrite map_fold_insert_L; [done | intros; lia | done].
Qed.

Lemma completed_sum_update (d : gmap Z ChallengeProgress) i old x :
  d !! i = Some old →
  completed_sum (<[i := x]> d) = completed_sum d + (contribution x - contribution old).
Proof.
  intros H.
  rewrite <-(insert_delete_eq d i x).
  rewrite completed_sum_fresh by apply lookup_delete_eq.
  rewrite <-(insert_delete_id d i old H) at 2.
  rewrite completed_sum_fresh by apply lookup_delete_eq. lia.
Qed.

Lemma entries_ok_insert (d : gmap Z ChallengeProgress) i x :
  map_Forall (λ _ cp, entry_ok cp) d → entry_ok x →
  map_Forall (λ _ cp, entry_ok cp) (<[i := x]> d).
Proof. intros. by apply map_Forall_insert_2. Qed.

(** *** Every call writes at most one record, and a well-formed one *)

Lemma world_ok_step w w' : world_ok w → writes_ok w w' → world_ok w'.
Proof.
  intros Hw [Heq | (u & p & Heq & Hp)] user q; rewrite Heq; [apply Hw|].
  rewrite lookup_insert. case_decide; [|apply Hw].
  intros [= <-]. exact Hp.
Qed.

Lemma record_ok_new user t1 t2 : record_ok (new_progress user t1 t2).
Proof.
  split; simpl; [apply map_Forall_empty | by rewrite completed_sum_empty].
Qed.

Lemma record_ok_start p cid t :
  record_ok p → challenge_progress p !! cid = None →
  record_ok
    (with_challenge_progress
       (<[cid := {| challenge_id := cid; completed := false; score := 0;
                    attempts := 0; hints_used := 0; time_started := Some t;
                    time_completed := None; best_score := 0 |}]>
          (challenge_progress p)) p).
Proof.
  intros [Hall Hsum] Hnone. split; simpl.
  - apply entries_ok_insert; [done | by split].
  - rewrite completed_sum_fresh by done. unfold contribution; simpl. lia.
Qed.

Lemma record_ok_touch p t : record_ok p → record_ok (with_last_activity t p).
Proof. by intros [??]. Qed.

Lemma record_ok_badges p b : record_ok p → record_ok (with_badges b p).
Proof. by intros [??]. Qed.

Ltac stored_case w user f Hf :=
  destruct (files w !! user) as [f|] eqn:Hf; [destruct f as [|f]|].

Section Preservation.

Variable recursion_limit : nat.

Lemma start_challenge_writes user cid w :
  world_ok w → writes_ok w (start_challenge recursion_limit user cid w).2.
Proof.
  intros Hw. unfold start_challenge, bind.
  stored_case w user p Hf.
  - unfold load_progress. rewrite load_progress_at_corrupt by done. by left.
  - rewrite (load_progress_stored _ _ _ _ Hf).
    pose proof (Hw _ _ Hf) as Hp.
    destruct (challenge_progress p !! cid) as [cp|] eqn:Hcp; simpl;
      right; eexists _, _; (split; [reflexivity|]).
    + by apply record_ok_touch.
    + by apply record_ok_touch, record_ok_start.
  - rewrite load_progress_missing by done. simpl.
    right; eexists _, _; split; [reflexivity|].
    apply record_ok_touch, record_ok_start; [apply record_ok_new | done].
Qed.

Lemma record_attempt_writes user cid w :
  world_ok w → writes_ok w (record_attempt recursion_limit user cid w).2.
Proof.
  intros Hw. unfold record_attempt, bind.
  stored_case w user p Hf.
  - unfold load_progress. rewrite load_progress_at_corrupt by done. by left.
  - rewrite (load_progress_stored _ _ _ _ Hf).
    pose proof (Hw _ _ Hf) as Hp.
    destruct (challenge_progress p !! cid) as [cp|] eqn:Hcp; simpl;
      right; eexists _, _; (split; [reflexivity|]); apply record_ok_touch; [|done].
    destruct Hp as [Hall Hsum]. split; simpl.
    + apply entries_ok_insert; [done|]. exact (Hall _ _ Hcp).
    + rewrite (completed_sum_update _ _ cp) by done.
      unfold contribution; simpl. lia.
  - rewrite load_progress_missing by done. simpl.
    right; eexists _, _; split; [reflexivity|].
    apply record_ok_touch, record_ok_new.
Qed.

Lemma use_hint_writes user cid lvl w :
  world_ok w → writes_ok w (use_hint recursion_limit user cid lvl w).2.
Proof.
  intros Hw. unfold use_hint, bind.
  stored_case w user p Hf.
  - unfold load_progress. rewrite load_progress_at_corrupt by done. by left.
  - rewrite (load_progress_stored _ _ _ _ Hf).
    pose proof (Hw _ _ Hf) as Hp.
    destruct (challenge_progress p !! cid) as [cp|] eqn:Hcp; simpl;
      right; eexists _, _; (split; [reflexivity|]); apply record_ok_touch; [|done].
    destruct Hp as [Hall Hsum]. split; simpl.
    + apply entries_ok_insert; [done|]. exact (Hall _ _ Hcp).
    + rewrite (completed_sum_update _ _ cp) by done.
      unfold contribution; simpl. lia.
  - rewrite load_progress_missing by done. simpl.
    right; eexists _, _; split; [reflexivity|].
    apply record_ok_touch, record_ok_new.
Qed.

Lemma record_ok_first_completion p cid cp s t :
  record_ok p → challenge_progress p !! cid = Some cp →
  completed cp = false → 0 ≤ s →
  record_ok
    (with_total_score (total_score p + (s - score cp))
       (with_challenge_progress
          (<[cid := with_scores s (best_score (mark_completed t cp) `max` s)
                      (mark_completed t cp)]> (challenge_progress p))
          (with_challenges_completed (challenges_completed p + 1) p))).
Proof.
  intros [Hall Hsum] Hcp Hc Hs.
  destruct (Hall _ _ Hcp) as [Heq Hzero]. specialize (Hzero Hc).
  split; simpl.
  - apply entries_ok_insert; [done|]. split; simpl; [lia | done].
  - rewrite (completed_sum_update _ _ cp) by done.
    unfold contribution; simpl. rewrite Hc. lia.
Qed.

Lemma record_ok_better_score p cid cp s :
  record_ok p → challenge_progress p !! cid = Some cp →
  completed cp = true → best_score cp < s →
  record_ok
    (with_total_score (total_score p + (s - score cp))
       (with_challenge_progress
          (<[cid := with_scores s (best_score cp `max` s) cp]> (challenge_progress p))
          p)).
Proof.
  intros [Hall Hsum] Hcp Hc Hs. split; simpl.
  - apply entries_ok_insert; [done|]. split; simpl; [lia | congruence].
  - rewrite (completed_sum_update _ _ cp) by done.
    unfold contribution; simpl. rewrite Hc. lia.
Qed.

Lemma complete_challenge_writes user cid s w :
  world_ok w → 0 ≤ s →
  writes_ok w (complete_challenge recursion_limit user cid s w).2.
Proof.
  intros Hw Hs. unfold complete_challenge, bind at 1.
  stored_case w user p Hf.
  - unfold load_progress. rewrite load_progress_at_corrupt by done. by left.
  - rewrite (load_progress_stored _ _ _ _ Hf).
    pose proof (Hw _ _ Hf) as Hp.
    destruct (challenge_progress p !! cid) as [cp|] eqn:Hcp.
    + unfold bind, lookup_cp; simpl. rewrite Hcp; simpl.
      destruct (completed cp) eqn:Hc; simpl.
      * case_bool_decide; simpl; right; eexists _, _; (split; [reflexivity|]);
          apply record_ok_touch, record_ok_badges; [|done].
        by apply record_ok_better_score.
      * right; eexists _, _; (split; [reflexivity|]).
        apply record_ok_touch, record_ok_badges.
        by apply record_ok_first_completion.
    + unfold bind at 1; simpl.
      pose proof (start_challenge_writes user cid w Hw) as Hstart.
      unfold bind, lookup_cp. rewrite Hcp.
      by destruct (start_challenge recursion_limit user cid w) as [[]]; unfold raise.
  - rewrite load_progress_missing by done.
    unfold bind at 1; simpl.
    set (w1 := {| files := files w; clock := S (S (clock w)) |}).
    assert (world_ok w1) as Hw1 by exact Hw.
    pose proof (start_challenge_writes user cid w1 Hw1) as Hstart.
    unfold bind, lookup_cp. simpl. rewrite !lookup_empty. simpl.
    destruct (start_challenge recursion_limit user cid w1) as [[]]; unfold raise;
      simpl in *; exact Hstart.
Qed.

Lemma run_op_writes o w :
  world_ok w → nonnegative o → writes_ok w (run_op recursion_limit o w).
Proof.
  intros Hw Ho. destruct o; simpl.
  - by apply start_challenge_writes.
  - by apply record_attempt_writes.
  - by apply use_hint_writes.
  - by apply complete_challenge_writes.
Qed.

Lemma world_ok_empty : world_ok empty_world.
Proof. intros user p H. simpl in H. by rewrite lookup_empty in H. Qed.

End Preservation.

(** C9. After any sequence of [start_challenge], [record_attempt],
    [use_hint] and [complete_challenge] calls whose submitted scores are
    nonnegative, started from files that satisfy it (in particular from an
    empty data directory), every stored per-unit entry has its current score
    equal to its best score, and the total score of every stored record is the
    sum of the current scores of its completed entries. *)
Theorem scores_track_best recursion_limit ops w :
  world_ok w → Forall nonnegative ops →
  ∀ user p, stored (run_ops recursion_limit ops w) user = Some p →
    (∀ cid cp, challenge_progress p !! cid = Some cp → score cp = best_score cp) ∧
    total_score p = completed_sum (challenge_progress p).
Proof.
  intros Hw Hops.
  assert (world_ok (run_ops recursion_limit ops w)) as Hfinal.
  { revert w Hw. induction Hops as [|o ops Ho _ IH]; intros w Hw; [done|].
    simpl. apply IH. eapply world_ok_step; [done|]. by apply run_op_writes. }
  intros user p Hst. unfold stored in Hst.
  destruct (files _ !! user) as [[|q]|] eqn:Hf; simplify_eq.
  destruct (Hfinal _ _ Hf) as [Hall Hsum]. split; [|done].
  intros cid cp Hcp. exact (proj1 (Hall _ _ Hcp)).
Qed.

Lemma scores_track_best_witness :
  let ops := [Start "player" 3; Attempt "player" 3; UseHint "player" 3 1;
              Complete "player" 3 200; Complete "player" 3 150;
              Complete "alice" 4 75; Complete "alice" 4 75] in
  world_ok empty_world ∧ Forall nonnegative ops ∧
  ∀ user p, stored (run_ops 1000 ops empty_world) user = Some p →
    (∀ cid cp, challenge_progress p !! cid = Some cp → score cp = best_score cp) ∧
    total_score p = completed_sum (challenge_progress p).
Proof.
  intros ops.
  assert (Forall nonnegative ops) as Hops by (repeat constructor; simpl; lia).
  split; [apply world_ok_empty|]. split; [exact Hops|].
  apply (scores_track_best 1000 ops empty_world); [apply world_ok_empty | exact Hops].
Defined.

(** *** Loading a corrupt record *)

(** C2. The claim is that a corrupt record loads as a fresh zeroed record.
    The handler of [load_progress] calls [load_progress] again on the same,
    still corrupt, file: whatever the recursion limit, the call ends in
    [RecursionError], which reaches the caller, and nothing is written. *)
Theorem load_progress_corrupt_raises recursion_limit user w :
  files w !! user = Some Corrupt →
  load_progress recursion_limit user w = (Raises RecursionError, w).
Proof. intros H. unfold load_progress. by apply load_progress_at_corrupt. Qed.

Lemma load_progress_corrupt_raises_witness :
  let w := {| files := {["player" := Corrupt]}; clock := 0%nat |} in
  files w !! "player" = Some Corrupt ∧
  load_progress 1000 "player" w = (Raises RecursionError, w).
Proof.
  intros w.
  assert (files w !! "player" = Some Corrupt) as H by reflexivity.
  split; [exact H|]. exact (load_progress_corrupt_raises 1000 "player" w H).
Defined.

(** *** Completing a unit that has an entry *)

Section Completion.

Variable recursion_limit : nat.

(** The effect of [complete_challenge] on a stored record that already holds
    an entry for the unit; [q] is the record on which the badges are
    evaluated, [p'] the record that is saved. *)
Lemma complete_challenge_entry user cid s w p cp :
  files w !! user = Some (Stored p) →
  challenge_progress p !! cid = Some cp →
  ∃ res w' p' cp' q,
    complete_challenge recursion_limit user cid s w = (Returns res, w') ∧
    files w' = <[username p := Stored p']> (files w) ∧
    username p' = username p ∧
    challenge_progress p' !! cid = Some cp' ∧
    completed cp' = true ∧
    (r_score res = s ∧
     r_total_score res = total_score p' ∧
     r_challenges_completed res = challenges_completed p' ∧
     r_new_badges res = _check_badges q) ∧
    (badges q = badges p ∧
     challenges_completed q = challenges_completed p' ∧
     challenge_progress q = challenge_progress p' ∧
     badges p' = remove_dups (badges p ++ _check_badges q) ∧
     challenges_completed p' =
       challenges_completed p + (if completed cp then 0 else 1)) ∧
    if negb (completed cp) || bool_decide (best_score cp < s)
    then score cp' = s ∧ best_score cp' = best_score cp `max` s ∧
         attempts cp' = attempts cp ∧
         total_score p' = total_score p + (s - score cp)
    else cp' = cp ∧ total_score p' = total_score p.
Proof.
  intros Hf Hcp. unfold complete_challenge, bind.
  rewrite (load_progress_stored _ _ _ _ Hf).
  rewrite Hcp. simpl. unfold lookup_cp. rewrite Hcp. simpl.
  destruct (completed cp) eqn:Hc; simpl.
  - case_bool_decide; simpl; eexists _, _, _, _, _;
      (split; [reflexivity|]); (split; [reflexivity|]); (split; [reflexivity|]);
      simpl; (split; [by rewrite ?lookup_insert_eq|]);
      (split; [done|]); (split; [repeat split; reflexivity|]);
      (split; [repeat split; simpl; lia|]); done.
  - eexists _, _, _, _, _;
      (split; [reflexivity|]); (split; [reflexivity|]); (split; [reflexivity|]);
      simpl; (split; [by rewrite ?lookup_insert_eq|]);
      (split; [done|]); (split; [repeat split; reflexivity|]);
      (split; [repeat split; simpl; lia|]); done.
Qed.

End Completion.

(** C7. For a unit that is already completed with stored current score
    [score cp], a submission strictly above the stored best score returns
    normally and raises the total score by exactly the difference between the
    new score and the stored current score, in the returned summary and in the
    stored record. *)
Theorem complete_challenge_higher_adds_delta recursion_limit user cid s_new w p cp :
  files w !! user = Some (Stored p) →
  challenge_progress p !! cid = Some cp →
  completed cp = true →
  best_score cp < s_new →
  ∃ res w' p',
    complete_challenge recursion_limit user cid s_new w = (Returns res, w') ∧
    r_total_score res = total_score p + (s_new - score cp) ∧
    stored w' (username p) = Some p' ∧
    total_score p' = total_score p + (s_new - score cp).
Proof.
  intros Hf Hcp Hc Hlt.
  destruct (complete_challenge_entry recursion_limit user cid s_new w p cp Hf Hcp)
    as (res & w' & p' & cp' & q & Hrun & Hfiles & _ & _ & _ & (_ & Hres & _) & _ & Hup).
  rewrite Hc, bool_decide_eq_true_2 in Hup by done. simpl in Hup.
  destruct Hup as (_ & _ & _ & Htot).
  exists res, w', p'. split; [done|]. split; [congruence|].
  split; [|done]. unfold stored. by rewrite Hfiles, lookup_insert_eq.
Qed.

Lemma complete_challenge_higher_adds_delta_witness :
  let cp := {| challenge_id := 3; completed := true; score := 80; attempts := 2;
               hints_used := 0; time_started := Some 0%nat;
               time_completed := Some 1%nat; best_score := 80 |} in
  let p := {| username := "player"; total_score := 80; challenges_completed := 1;
              total_attempts := 2; badges := ["first_blood"];
              challenge_progress := {[3 := cp]};
              started_at := 0%nat; last_activity := 1%nat |} in
  let w := {| files := {["player" := Stored p]}; clock := 2%nat |} in
  ∃ res w' p',
    complete_challenge 1000 "player" 3 95 w = (Returns res, w') ∧
    r_total_score res = 80 + (95 - 80) ∧
    stored w' "player" = Some p' ∧
    total_score p' = 80 + (95 - 80).
Proof.
  intros cp p w.
  apply (complete_challenge_higher_adds_delta 1000 "player" 3 95 w p cp);
    [reflexivity | reflexivity | reflexivity | simpl; lia].
Defined.

(** *** Badges in the example scenario *)

Lemma existsb_values_insert (d : gmap Z ChallengeProgress) i x f :
  f x = true → existsb f (values (<[i := x]> d)) = true.
Proof.
  intros Hx. apply existsb_exists. exists x. split; [|done].
  apply list_elem_of_In. unfold values. apply list_elem_of_fmap.
  exists (i, x). split; [done|]. apply elem_of_map_to_list, lookup_insert_eq.
Qed.

Lemma check_badges_first p cid cp :
  challenges_completed p = 1 → badges p = [] →
  challenge_progress p !! cid = Some cp →
  completed cp = true → attempts cp ≤ 5 →
  _check_badges p = ["first_blood"; "speed_demon"].
Proof.
  intros Hcc Hb Hcp Hc Ha. unfold _check_badges. rewrite Hcc, Hb.
  rewrite <-(insert_id _ _ _ Hcp).
  rewrite existsb_values_insert by (by rewrite Hc, bool_decide_eq_true_2).
  simpl. by rewrite !andb_false_r.
Qed.

Lemma check_badges_second p :
  challenges_completed p = 1 →
  "first_blood" ∈ badges p → "speed_demon" ∈ badges p →
  _check_badges p = [].
Proof.
  intros Hcc Hfb Hsd. unfold _check_badges, contains. rewrite Hcc.
  rewrite !(bool_decide_eq_true_2 _ Hfb), !(bool_decide_eq_true_2 _ Hsd).
  simpl. by rewrite !andb_false_r.
Qed.

(** *** The example scenario *)

(** C1, as stated, fails.  For a player without a progress file the first call
    raises [KeyError] instead of returning a summary.  Once unit 3 has been
    started, the first call does return, but it awards "speed_demon" next to
    "first_blood", and the second, lower submission leaves the stored current
    score at 200. *)
Lemma example_scenario_as_stated_fails :
  (complete_challenge 1000 "player" 3 200 empty_world).1 = Raises (KeyError 3) ∧
  (complete_challenge 1000 "player" 3 200 started_world).1 ≠
    Returns expected_first_summary ∧
  score <$> entry (run_ops 1000 [Complete "player" 3 200; Complete "player" 3 150]
                     started_world) "player" 3 ≠ Some 150.
Proof. by vm_compute. Qed.

(** C1, amended.  For a user whose stored record has no completed unit, total
    score 0 and no badge, and holds a started, not yet completed entry for the
    unit with at most 5 attempts: completing it with score 200 returns
    [{score: 200, total_score: 200, new_badges: ["first_blood", "speed_demon"],
    challenges_completed: 1}]; completing it again with score 150 returns
    [{score: 150, total_score: 200, new_badges: [], challenges_completed: 1}]
    and leaves the best score, the total score and the stored current score
    at 200. *)
Theorem example_scenario_started recursion_limit user cid w p cp :
  files w !! user = Some (Stored p) → username p = user →
  total_score p = 0 → challenges_completed p = 0 → badges p = [] →
  challenge_progress p !! cid = Some cp →
  completed cp = false → score cp = 0 → best_score cp = 0 → attempts cp ≤ 5 →
  ∃ w1 w2 p2 cp2,
    complete_challenge recursion_limit user cid 200 w = (Returns first_summary, w1) ∧
    complete_challenge recursion_limit user cid 150 w1 = (Returns second_summary, w2) ∧
    stored w2 user = Some p2 ∧
    challenge_progress p2 !! cid = Some cp2 ∧
    total_score p2 = 200 ∧ best_score cp2 = 200 ∧ score cp2 = 200.
Proof.
  intros Hf Hu Ht Hcc Hb Hcp Hc Hs Hbs Ha.
  destruct (complete_challenge_entry recursion_limit user cid 200 w p cp Hf Hcp)
    as (r1 & w1 & p1 & cp1 & q1 & Hrun1 & Hfiles1 & Hu1 & Hcp1 & Hc1 &
        (Hr1s & Hr1t & Hr1c & Hr1b) & (Hq1b & Hq1c & Hq1d & Hp1b & Hp1c) & Hup1).
  rewrite Hc in Hup1, Hp1c. simpl in Hup1. destruct Hup1 as (Hs1 & Hb1 & Ha1 & Ht1).
  assert (_check_badges q1 = ["first_blood"; "speed_demon"]) as Hbadges1.
  { apply (check_badges_first q1 cid cp1); [lia | congruence | congruence | done | lia]. }
  rewrite Hbadges1, Hb in Hp1b. simpl in Hp1b.
  assert (files w1 !! user = Some (Stored p1)) as Hf1.
  { rewrite Hfiles1, Hu. apply lookup_insert_eq. }
  destruct (complete_challenge_entry recursion_limit user cid 150 w1 p1 cp1 Hf1 Hcp1)
    as (r2 & w2 & p2 & cp2 & q2 & Hrun2 & Hfiles2 & Hu2 & Hcp2 & Hc2 &
        (Hr2s & Hr2t & Hr2c & Hr2b) & (Hq2b & Hq2c & Hq2d & Hp2b & Hp2c) & Hup2).
  rewrite Hc1 in Hup2, Hp2c. simpl in Hup2.
  rewrite bool_decide_eq_false_2 in Hup2 by lia. destruct Hup2 as [-> Ht2].
  assert (_check_badges q2 = []) as Hbadges2.
  { apply check_badges_second; [lia | rewrite Hq2b, Hp1b; set_solver..]. }
  exists w1, w2, p2, cp1.
  split. { rewrite Hrun1. f_equal. destruct r1 as [a b c d]; simpl in *.
           assert (b = 200) by lia. assert (d = 1) by lia.
           unfold first_summary. congruence. }
  split. { rewrite Hrun2. f_equal. destruct r2 as [a b c d]; simpl in *.
           assert (b = 200) by lia. assert (d = 1) by lia.
           unfold second_summary. congruence. }
  split. { unfold stored. by rewrite Hfiles2, Hu1, Hu, lookup_insert_eq. }
  split; [done|]. repeat split; lia.
Qed.

Lemma example_scenario_started_witness :
  ∃ w1 w2 p2 cp2,
    complete_challenge 1000 "player" 3 200 started_world = (Returns first_summary, w1) ∧
    complete_challenge 1000 "player" 3 150 w1 = (Returns second_summary, w2) ∧
    stored w2 "player" = Some p2 ∧
    challenge_progress p2 !! 3 = Some cp2 ∧
    total_score p2 = 200 ∧ best_score cp2 = 200 ∧ score cp2 = 200.
Proof.
  eapply (example_scenario_started 1000 "player" 3 started_world);
    [reflexivity | reflexivity | reflexivity | reflexivity | reflexivity
    | reflexivity | reflexivity | reflexivity | reflexivity | simpl; lia].
Defined.

(** *** Resubmitting a lower or equal score *)

(** C6, as stated, fails: when the unit was completed before with a best
    score of 100, submitting 80 and then 60 leaves the best score at 100, not
    at 80. *)
Lemma resubmission_keeps_earlier_best :
  60 ≤ 80 ∧ ¬ resubmission_keeps_first 1000 "player" 3 80 60 completed_world.
Proof.
  split; [lia|]. intros [Hbest _]. vm_compute in Hbest. discriminate.
Qed.

(** C6, amended.  For every user and every unit that has an entry in the
    user's stored record, with best score [b]: [complete_challenge] with score
    [s1] followed by [complete_challenge] with any [s2 ≤ s1] both return; the
    best score is then [max b s1] (so [s1] whenever [b ≤ s1]), and the second
    call changes neither the best score, nor the current score, nor the total
    score. *)
Theorem complete_lower_or_equal_noop recursion_limit user cid s1 s2 w p cp :
  files w !! user = Some (Stored p) → username p = user →
  challenge_progress p !! cid = Some cp →
  s2 ≤ s1 →
  ∃ r1 w1 r2 w2 p1 p2 cp1,
    complete_challenge recursion_limit user cid s1 w = (Returns r1, w1) ∧
    complete_challenge recursion_limit user cid s2 w1 = (Returns r2, w2) ∧
    stored w1 user = Some p1 ∧ stored w2 user = Some p2 ∧
    challenge_progress p1 !! cid = Some cp1 ∧
    challenge_progress p2 !! cid = Some cp1 ∧
    best_score cp1 = best_score cp `max` s1 ∧
    total_score p2 = total_score p1 ∧
    r_total_score r2 = r_total_score r1.
Proof.
  intros Hf Hu Hcp Hle.
  destruct (complete_challenge_entry recursion_limit user cid s1 w p cp Hf Hcp)
    as (r1 & w1 & p1 & cp1 & q1 & Hrun1 & Hfiles1 & Hu1 & Hcp1 & Hc1 &
        (_ & Hr1t & _) & _ & Hup1).
  assert (files w1 !! user = Some (Stored p1)) as Hf1.
  { rewrite Hfiles1, Hu. apply lookup_insert_eq. }
  assert (best_score cp1 = best_score cp `max` s1) as Hbest.
  { destruct (completed cp) eqn:Hc; simpl in Hup1; [case_bool_decide|];
      simpl in Hup1; [| destruct Hup1 as [-> _]; lia |]; by destruct Hup1 as (_ & ? & _). }
  destruct (complete_challenge_entry recursion_limit user cid s2 w1 p1 cp1 Hf1 Hcp1)
    as (r2 & w2 & p2 & cp2 & q2 & Hrun2 & Hfiles2 & Hu2 & Hcp2 & Hc2 &
        (_ & Hr2t & _) & _ & Hup2).
  rewrite Hc1 in Hup2. simpl in Hup2.
  rewrite bool_decide_eq_false_2 in Hup2 by lia. destruct Hup2 as [-> Ht2].
  exists r1, w1, r2, w2, p1, p2, cp1.
  split; [done|]. split; [done|].
  split. { unfold stored. by rewrite Hf1. }
  split. { unfold stored. by rewrite Hfiles2, Hu1, Hu, lookup_insert_eq. }
  repeat split; [done | done | done | done | congruence].
Qed.

Lemma complete_lower_or_equal_noop_witness :
  let cp := {| challenge_id := 3; completed := false; score := 0; attempts := 0;
               hints_used := 0; time_started := Some 2%nat;
               time_completed := None; best_score := 0 |} in
  let p := {| username := "player"; total_score := 0; challenges_completed := 0;
              total_attempts := 0; badges := [];
              challenge_progress := {[3 := cp]};
              started_at := 0%nat; last_activity := 3%nat |} in
  let w := {| files := {["player" := Stored p]}; clock := 4%nat |} in
  ∃ r1 w1 r2 w2 p1 p2 cp1,
    complete_challenge 1000 "player" 3 80 w = (Returns r1, w1) ∧
    complete_challenge 1000 "player" 3 60 w1 = (Returns r2, w2) ∧
    stored w1 "player" = Some p1 ∧ stored w2 "player" = Some p2 ∧
    challenge_progress p1 !! 3 = Some cp1 ∧
    challenge_progress p2 !! 3 = Some cp1 ∧
    best_score cp1 = 0 `max` 80 ∧
    total_score p2 = total_score p1 ∧
    r_total_score r2 = r_total_score r1.
Proof.
  intros cp p w.
  apply (complete_lower_or_equal_noop 1000 "player" 3 80 60 w p cp);
    [reflexivity | reflexivity | reflexivity | lia].
Defined.

End ScoringProps.

(** ** Hints *)

Module HintProps.

Import Base Server Dispatch.

Lemma getitem_last {A} (l : list A) x :
  last l = Some x → getitem l (0 - 1) = Returns x.
Proof.
  intros Hlast. unfold getitem.
  assert (length l ≠ 0%nat) as Hlen by (by destruct l).
  cbv zeta. destruct (decide (0 - 1 < 0)) as [_|]; [|lia].
  rewrite decide_True by lia.
  rewrite last_lookup in Hlast.
  replace (Z.to_nat (0 - 1 + Z.of_nat (length l))) with (pred (length l)) by lia.
  by rewrite Hlast.
Qed.

Lemma getitem_not_none {A} (l : list A) i :
  (match getitem l i with
   | Returns h => Returns (Some h)
   | Raises e => Raises e
   end) ≠ Returns None.
Proof. by destruct (getitem l i). Qed.

(** C10. For a challenge with a non-empty hint list, [get_hint 0] returns
    the last hint and leaves the challenge with [hints_used] one higher and
    every other attribute as it was; [get_hint] answers [None], and
    [_get_hint] reports an invalid hint level, exactly when the level exceeds
    the number of hints; so level 0 is not reported as invalid: unless the
    player's progress file is corrupt, [_get_hint] returns the text of the
    last hint for it. *)
Theorem hint_level_zero_is_last recursion_limit self cid ch h w :
  dict_get (challenges self) cid = Some ch →
  last (hints (info ch)) = Some h →
  ((get_hint ch 0).1 = Returns (Some h) ∧
   hints_used (get_hint ch 0).2 = hints_used ch + 1 ∧
   info (get_hint ch 0).2 = info ch ∧
   attempts (get_hint ch 0).2 = attempts ch ∧
   get_tools (get_hint ch 0).2 = get_tools ch ∧
   get_resources (get_hint ch 0).2 = get_resources ch) ∧
  (∀ lvl, (get_hint ch lvl).1 = Returns None ↔
          Z.of_nat (length (hints (info ch))) < lvl) ∧
  (∀ lvl, (_get_hint recursion_limit self cid lvl w).1.1 =
            Returns ("❌ Invalid hint level: " +:+ str lvl) ↔
          Z.of_nat (length (hints (info ch))) < lvl) ∧
  (Scoring.files w !! "player" ≠ Some Scoring.Corrupt →
   (_get_hint recursion_limit self cid 0 w).1.1 =
     Returns ("💡 HINT L" +:+ str cid +:+ "." +:+ str 0 +:+ newline +:+ newline
              +:+ text h)).
Proof.
  intros Hch Hlast.
  assert (get_hint ch 0 =
          (Returns (Some h), Base.with_hints_used (hints_used ch + 1) ch)) as Hzero.
  { unfold get_hint. rewrite decide_True by lia. simpl.
    by rewrite (getitem_last _ _ Hlast). }
  split; [by rewrite Hzero|]. split; [|split].
  - intros lvl. unfold get_hint. case_decide; simpl.
    + split; [|lia]. intros Hnone. by apply getitem_not_none in Hnone.
    + split; [lia | done].
  - intros lvl. unfold _get_hint. rewrite Hch. unfold get_hint.
    case_decide; simpl; [|split; [lia | done]].
    split; [|lia]. destruct (getitem _ _); [|done].
    destruct (Scoring.use_hint _ _ _ _ _) as [[?|?] ?]; simpl; [|done].
    intros [= Heq].
  - unfold _get_hint. rewrite Hch, Hzero.
    intros Hfile. unfold Scoring.use_hint, Scoring.bind.
    destruct (Scoring.files w !! "player") as [[|p]|] eqn:Hf; [done| |].
    + by rewrite (ScoringProps.load_progress_stored _ _ _ _ Hf).
    + by rewrite (ScoringProps.load_progress_missing _ _ _ Hf).
Qed.

Lemma hint_level_zero_is_last_witness :
  let ch := challenge_with three_hints [] [] in
  let h := {| level := 3; text := "append a second command"; points_cost := 30 |} in
  ∃ self, __init__ urlparse_model [(1, ch)] = Returns self ∧
  ((get_hint ch 0).1 = Returns (Some h) ∧
   hints_used (get_hint ch 0).2 = hints_used ch + 1 ∧
   info (get_hint ch 0).2 = info ch ∧
   attempts (get_hint ch 0).2 = attempts ch ∧
   get_tools (get_hint ch 0).2 = get_tools ch ∧
   get_resources (get_hint ch 0).2 = get_resources ch) ∧
  (∀ lvl, (get_hint ch lvl).1 = Returns None ↔
          Z.of_nat (length (hints (info ch))) < lvl) ∧
  (∀ lvl, (_get_hint 1000 self 1 lvl Scoring.empty_world).1.1 =
            Returns ("❌ Invalid hint level: " +:+ str lvl) ↔
          Z.of_nat (length (hints (info ch))) < lvl) ∧
  (Scoring.files Scoring.empty_world !! "player" ≠ Some Scoring.Corrupt →
   (_get_hint 1000 self 1 0 Scoring.empty_world).1.1 =
     Returns ("💡 HINT L" +:+ str 1 +:+ "." +:+ str 0 +:+ newline +:+ newline
              +:+ text h)).
Proof.
  intros ch h. eexists. split; [reflexivity|].
  apply (hint_level_zero_is_last 1000 _ 1 ch h Scoring.empty_world);
    reflexivity.
Defined.

(** A negative level beyond the start of the list is not reported as invalid
    either: the index is out of range and [IndexError] escapes, after
    [hints_used] has been incremented. *)
Example hint_level_far_below_raises :
  let ch := challenge_with three_hints [] [] in
  (get_hint ch (-3)).1 = Raises IndexError ∧
  hints_used ch = 0 ∧ hints_used (get_hint ch (-3)).2 = 1.
Proof. done. Qed.

End HintProps.

(** ** The tool registry *)

Module RegistryProps.

Import Base Server Dispatch.

(** *** Namespaced names are injective *)

Lemma pretty_N_go_no_underscore x s :
  no_underscore s → no_underscore (pretty_N_go x s).
Proof.
  revert s. induction (N.lt_wf_0 x) as [x _ IH]; intros s Hs.
  assert (x = 0 ∨ 0 < x)%N as [->|Hpos] by lia.
  - by rewrite pretty_N_go_0.
  - rewrite pretty_N_go_step by done. apply IH.
    { by apply N.div_lt. }
    split; [|done]. unfold pretty_N_char. by repeat case_match.
Qed.

Lemma str_no_underscore z : no_underscore (str z).
Proof.
  unfold str, pretty, pretty_Z. destruct z as [|x|x]; simpl.
  - done.
  - by apply pretty_N_go_no_underscore.
  - split; [done|]. by apply pretty_N_go_no_underscore.
Qed.

Lemma underscore_split a b r1 r2 :
  no_underscore a → no_underscore b →
  a +:+ String "_" r1 = b +:+ String "_" r2 → a = b ∧ r1 = r2.
Proof.
  revert b. induction a as [|c a IH]; intros [|d b]; simpl.
  - intros _ _ [= ->]. done.
  - intros _ [Hd _] [= <- _]. done.
  - intros [Hc _] _ [= -> _]. done.
  - intros [_ Ha] [_ Hb] [= -> Heq]. destruct (IH b Ha Hb Heq) as [-> ->]. done.
Qed.

Lemma ns_name_inj c1 n1 c2 n2 :
  ns_name c1 n1 = ns_name c2 n2 → c1 = c2 ∧ n1 = n2.
Proof.
  unfold ns_name. simpl. intros [= Heq].
  apply underscore_split in Heq as [Hstr [= ->]]; [|apply str_no_underscore..].
  split; [|done]. by apply (inj pretty).
Qed.

(** *** The second loop, table by table *)

Lemma reg_tools_expose nc cid r tools :
  reg_tools (foldl (expose nc cid) r tools) =
  foldl (λ m pr, <[ns_name pr.1 pr.2 := pr]> m) (reg_tools r)
        ((λ t, (cid, name t)) <$> tools).
Proof. revert r. induction tools as [|t tools IH]; intros r; [done|]. simpl. by rewrite IH. Qed.

Lemma reg_unique_expose nc cid r tools :
  reg_unique (foldl (expose nc cid) r tools) =
  foldl (λ u pr, if decide (default 0 (nc !! pr.2) = 1)
                 then <[pr.2 := pr]> u else u) (reg_unique r)
        ((λ t, (cid, name t)) <$> tools).
Proof. revert r. induction tools as [|t tools IH]; intros r; [done|]. simpl. by rewrite IH. Qed.

Lemma reg_namespaced_expose nc cid r tools :
  name <$> reg_namespaced (foldl (expose nc cid) r tools) =
  (name <$> reg_namespaced r) ++ ((λ pr, ns_name pr.1 pr.2) <$> ((λ t, (cid, name t)) <$> tools)).
Proof.
  revert r. induction tools as [|t tools IH]; intros r; simpl.
  - by rewrite app_nil_r.
  - rewrite IH. simpl. rewrite fmap_app. simpl. by rewrite <-app_assoc.
Qed.

Lemma reg_tools_expose_all nc r pct :
  reg_tools (expose_all nc r pct) =
  foldl (λ m pr, <[ns_name pr.1 pr.2 := pr]> m) (reg_tools r) (declared_pairs pct).
Proof.
  unfold expose_all, declared_pairs. revert r.
  induction pct as [|c pct IH]; intros r; [done|].
  simpl. rewrite foldl_app, IH. by rewrite reg_tools_expose.
Qed.

Lemma reg_unique_expose_all nc r pct :
  reg_unique (expose_all nc r pct) =
  foldl (λ u pr, if decide (default 0 (nc !! pr.2) = 1)
                 then <[pr.2 := pr]> u else u) (reg_unique r) (declared_pairs pct).
Proof.
  unfold expose_all, declared_pairs. revert r.
  induction pct as [|c pct IH]; intros r; [done|].
  simpl. rewrite foldl_app, IH. by rewrite reg_unique_expose.
Qed.

Lemma reg_namespaced_expose_all nc r pct :
  name <$> reg_namespaced (expose_all nc r pct) =
  (name <$> reg_namespaced r) ++ ((λ pr, ns_name pr.1 pr.2) <$> declared_pairs pct).
Proof.
  unfold expose_all, declared_pairs. revert r.
  induction pct as [|c pct IH]; intros r; simpl.
  - by rewrite app_nil_r.
  - rewrite IH, reg_namespaced_expose, fmap_app. by rewrite <-app_assoc.
Qed.

Lemma elem_of_declared_pairs chs cid n :
  (cid, n) ∈ declared_pairs (per_challenge_tools chs) ↔
  ∃ ch, (cid, ch) ∈ chs ∧ n ∈ name <$> get_tools ch.
Proof.
  unfold declared_pairs, per_challenge_tools. rewrite list_elem_of_bind. split.
  - intros (c & Hin & Hc). apply list_elem_of_fmap in Hc as ([c' ch] & -> & Hc).
    simpl in Hin. apply list_elem_of_fmap in Hin as (t & [= -> ->] & Ht).
    exists ch. split; [done|]. apply list_elem_of_fmap. eauto.
  - intros (ch & Hch & Hn). apply list_elem_of_fmap in Hn as (t & -> & Ht).
    exists (cid, get_tools ch). split.
    + simpl. apply list_elem_of_fmap. eauto.
    + apply list_elem_of_fmap. by exists (cid, ch).
Qed.

Lemma declared_pairs_names chs :
  (declared_pairs (per_challenge_tools chs)).*2 = all_names chs.
Proof.
  unfold declared_pairs, per_challenge_tools, all_names.
  induction chs as [|c chs IH]; [done|].
  rewrite fmap_cons, !bind_cons, fmap_app, IH. f_equal.
  by rewrite <-list_fmap_compose.
Qed.

(** *** Lookups in the namespaced table *)

Lemma reg_tools_lookup (l : list (Z * string)) (m : gmap string (Z * string)) cid n :
  (cid, n) ∈ l ∨ m !! ns_name cid n = Some (cid, n) →
  foldl (λ m pr, <[ns_name pr.1 pr.2 := pr]> m) m l !! ns_name cid n = Some (cid, n).
Proof.
  revert m. induction l as [|[c' n'] l IH]; intros m [Hin|Hm]; simpl.
  - by apply elem_of_nil in Hin.
  - done.
  - apply IH. apply elem_of_cons in Hin as [[= <- <-]|Hin]; [right|by left].
    apply lookup_insert_eq.
  - apply IH. right. destruct (decide ((c', n') = (cid, n))) as [[= -> ->]|Hne].
    + apply lookup_insert_eq.
    + rewrite lookup_insert_ne; [done|].
      intros Heq. apply ns_name_inj in Heq as [-> ->]. done.
Qed.

Lemma declared_pairs_NoDup chs :
  NoDup chs.*1 →
  (∀ c, c ∈ chs → NoDup (name <$> get_tools c.2)) →
  NoDup (declared_pairs (per_challenge_tools chs)).
Proof.
  induction chs as [|[cid ch] chs IH]; intros Hids Hnames.
  - constructor.
  - apply NoDup_cons in Hids as [Hcid Hids].
    change (declared_pairs (per_challenge_tools ((cid, ch) :: chs)))
      with (((λ t, (cid, name t)) <$> get_tools ch)
              ++ declared_pairs (per_challenge_tools chs)).
    apply NoDup_app. split; [|split].
    + rewrite (list_fmap_compose name (λ n, (cid, n))).
      apply NoDup_fmap_2; [by intros ?? [= ->]|].
      apply (Hnames (cid, ch)). by left.
    + intros [c n] Hhere Hthere.
      apply list_elem_of_fmap in Hhere as (t & [= -> ->] & _).
      apply elem_of_declared_pairs in Hthere as (ch' & Hch' & _).
      apply Hcid. apply list_elem_of_fmap. by exists (cid, ch').
    + apply IH; [done|]. intros c Hc. apply Hnames. by right.
Qed.

(** C5. When unit ids are unique and bare names are unique within each
    challenge, the namespaced names the registry generates are pairwise
    distinct, and the namespaced table maps the name generated for every
    declared (unit id, bare name) pair back to that pair; distinct pairs
    never share a namespaced name. *)
Theorem namespaced_names_distinct chs :
  NoDup chs.*1 →
  (∀ c, c ∈ chs → NoDup (name <$> get_tools c.2)) →
  let r := _build_tool_registry chs in
  NoDup (name <$> reg_namespaced r) ∧
  (∀ cid ch t, (cid, ch) ∈ chs → t ∈ get_tools ch →
     reg_tools r !! ns_name cid (name t) = Some (cid, name t)) ∧
  (∀ c1 n1 c2 n2, ns_name c1 n1 = ns_name c2 n2 → c1 = c2 ∧ n1 = n2).
Proof.
  intros Hids Hnames r. split; [|split].
  - unfold r, _build_tool_registry. rewrite reg_namespaced_expose_all. simpl.
    apply NoDup_fmap_2_strong; [|by apply declared_pairs_NoDup].
    intros [c1 n1] [c2 n2] _ _ Heq. simpl in Heq.
    apply ns_name_inj in Heq as [-> ->]. done.
  - intros cid ch t Hch Ht. unfold r, _build_tool_registry.
    rewrite reg_tools_expose_all. apply reg_tools_lookup. left.
    apply elem_of_declared_pairs. exists ch. split; [done|].
    apply list_elem_of_fmap. eauto.
  - apply ns_name_inj.
Qed.

Lemma namespaced_names_distinct_witness :
  NoDup check_twice.*1 ∧
  (∀ c, c ∈ check_twice → NoDup (name <$> get_tools c.2)) ∧
  let r := _build_tool_registry check_twice in
  NoDup (name <$> reg_namespaced r) ∧
  (∀ cid ch t, (cid, ch) ∈ check_twice → t ∈ get_tools ch →
     reg_tools r !! ns_name cid (name t) = Some (cid, name t)) ∧
  (∀ c1 n1 c2 n2, ns_name c1 n1 = ns_name c2 n2 → c1 = c2 ∧ n1 = n2).
Proof.
  assert (NoDup check_twice.*1) as Hids by (apply (bool_decide_unpack _); by vm_compute).
  assert (∀ c, c ∈ check_twice → NoDup (name <$> get_tools c.2)) as Hnames.
  { intros c Hc. unfold check_twice in Hc.
    repeat (apply elem_of_cons in Hc as [->|Hc];
            [apply (bool_decide_unpack _); by vm_compute|]).
    by apply elem_of_nil in Hc. }
  split; [exact Hids|]. split; [exact Hnames|].
  exact (namespaced_names_distinct check_twice Hids Hnames).
Defined.

(** *** The first loop counts occurrences *)

Lemma count_names_lookup (nc : gmap string Z) tools n :
  default 0 (count_names nc tools !! n) =
  default 0 (nc !! n) + Z.of_nat (length (filter (λ m, m = n) (name <$> tools))).
Proof.
  unfold count_names. revert nc.
  induction tools as [|t tools IH]; intros nc; [simpl; lia|].
  rewrite fmap_cons. cbn [foldl]. rewrite IH, filter_cons. case_decide as Hn.
  - rewrite Hn, lookup_insert_eq. cbn [default length]. unfold Datatypes.id. lia.
  - rewrite lookup_insert_ne by done. lia.
Qed.

Lemma name_counts_lookup (nc : gmap string Z) chs n :
  default 0 (foldl (λ nc c, count_names nc (get_tools c.2)) nc chs !! n) =
  default 0 (nc !! n) + Z.of_nat (length (filter (λ m, m = n) (all_names chs))).
Proof.
  unfold all_names. revert nc.
  induction chs as [|c chs IH]; intros nc; [simpl; lia|].
  cbn [foldl]. rewrite IH, count_names_lookup, bind_cons, filter_app, length_app. lia.
Qed.

Lemma name_counts_of_lookup chs n :
  default 0 (name_counts_of chs !! n) = Z.of_nat (occurrences n chs).
Proof.
  unfold name_counts_of, occurrences.
  rewrite name_counts_lookup, lookup_empty. simpl. lia.
Qed.

Lemma filter_snd_length (l : list (Z * string)) n :
  length (filter (λ pr, pr.2 = n) l) = length (filter (λ m, m = n) l.*2).
Proof.
  induction l as [|pr l IH]; [done|].
  rewrite fmap_cons, !filter_cons. simpl. case_decide; simpl; by rewrite IH.
Qed.

(** *** Lookups in the alias table *)

Lemma reg_unique_lookup (nc : gmap string Z) (l : list (Z * string))
    (u : gmap string (Z * string)) n :
  foldl (λ u pr, if decide (default 0 (nc !! pr.2) = 1)
                 then <[pr.2 := pr]> u else u) u l !! n =
  if decide (default 0 (nc !! n) = 1)
  then match last (filter (λ pr, pr.2 = n) l) with
       | Some pr => Some pr
       | None => u !! n
       end
  else u !! n.
Proof.
  revert u. induction l as [|pr l IH]; intros u; simpl.
  - by case_decide.
  - rewrite IH, filter_cons.
    destruct (decide (pr.2 = n)) as [Hn|Hn].
    + rewrite last_cons. rewrite Hn.
      case_decide; [|done].
      rewrite lookup_insert_eq. by destruct (last _).
    + destruct (decide (default 0 (nc !! n) = 1));
        destruct (decide (default 0 (nc !! pr.2) = 1));
        rewrite ?lookup_insert_ne by done; done.
Qed.

Lemma alias_lookup chs n :
  reg_unique (_build_tool_registry chs) !! n =
  if decide (occurrences n chs = 1%nat)
  then last (filter (λ pr, pr.2 = n) (declared_pairs (per_challenge_tools chs)))
  else None.
Proof.
  unfold _build_tool_registry.
  rewrite reg_unique_expose_all, reg_unique_lookup, name_counts_of_lookup.
  simpl. rewrite lookup_empty.
  destruct (decide (Z.of_nat (occurrences n chs) = 1));
    destruct (decide (occurrences n chs = 1%nat)); try lia; [|done].
  by destruct (last _).
Qed.

Lemma occurrences_ge chs cid ch n :
  (cid, ch) ∈ chs →
  (length (filter (λ m, m = n) (name <$> get_tools ch)) ≤ occurrences n chs)%nat.
Proof.
  intros (l1 & l2 & ->)%list_elem_of_split. unfold occurrences, all_names.
  rewrite bind_app, bind_cons, !filter_app, !length_app. simpl. lia.
Qed.

(** C3. A bare name is in the alias table exactly when it occurs once over
    all challenges; the alias then maps to the pair (unit id, bare name) of
    the one challenge that declares it. *)
Theorem alias_iff_globally_unique chs n :
  let r := _build_tool_registry chs in
  (is_Some (reg_unique r !! n) ↔ occurrences n chs = 1%nat) ∧
  (∀ v, reg_unique r !! n = Some v →
     ∃ cid ch, (cid, ch) ∈ chs ∧ n ∈ name <$> get_tools ch ∧ v = (cid, n) ∧
       ∀ cid' ch', (cid', ch') ∈ chs → n ∈ name <$> get_tools ch' → cid' = cid).
Proof.
  intros r. pose proof (alias_lookup chs n) as Hlookup. fold r in Hlookup.
  assert (occurrences n chs = 1%nat →
          ∃ pr, filter (λ pr, pr.2 = n) (declared_pairs (per_challenge_tools chs)) = [pr])
    as Hone.
  { intros Hocc. unfold occurrences in Hocc.
    rewrite <-declared_pairs_names, <-filter_snd_length in Hocc.
    destruct (filter _ _) as [|pr [|??]]; simplify_eq/=. by exists pr. }
  split.
  - rewrite Hlookup. case_decide as Hocc; [|split; [by intros [??]|done]].
    split; [done|]. intros _. destruct (Hone Hocc) as [pr ->]. by eexists.
  - intros v Hv. rewrite Hlookup in Hv. case_decide as Hocc; [|done].
    destruct (Hone Hocc) as [[cid m] Hfilter]. rewrite Hfilter in Hv.
    simpl in Hv. injection Hv as <-.
    assert ((cid, m) ∈ filter (λ pr, pr.2 = n)
                         (declared_pairs (per_challenge_tools chs))) as Hin
      by (rewrite Hfilter; by left).
    apply list_elem_of_filter in Hin as [Hm Hin]. simpl in Hm. subst m.
    apply elem_of_declared_pairs in Hin as (ch & Hch & Hn).
    exists cid, ch. repeat split; [done..|].
    intros cid' ch' Hch' Hn'.
    assert ((cid', n) ∈ filter (λ pr, pr.2 = n)
                          (declared_pairs (per_challenge_tools chs))) as Hin'.
    { apply list_elem_of_filter. split; [done|].
      apply elem_of_declared_pairs. eauto. }
    rewrite Hfilter in Hin'. apply list_elem_of_singleton in Hin'. congruence.
Qed.

(** Two challenges that both declare "check": no alias for "check", an alias
    for the globally unique "submit_a", and both namespaced names resolve. *)
Example check_twice_registry :
  let r := _build_tool_registry check_twice in
  reg_unique r !! "check" = None ∧
  reg_unique r !! "submit_a" = Some (1, "submit_a") ∧
  reg_tools r !! "lvl1__check" = Some (1, "check") ∧
  reg_tools r !! "lvl2__check" = Some (2, "check").
Proof. by vm_compute. Qed.

(** C8, as stated, fails: a challenge that declares "check" twice does not
    make the build fail; the server is constructed, with one namespaced entry
    for the name, two listings of it, and no alias. *)
Lemma duplicate_names_are_accepted :
  ∃ self, __init__ urlparse_model check_duplicated = Returns self ∧
    _tool_registry self !! "lvl1__check" = Some (1, "check") ∧
    name <$> _namespaced_tools self = ["lvl1__check"; "lvl1__check"] ∧
    _unique_tool_registry self !! "check" = None.
Proof. eexists. split; [reflexivity|]. by vm_compute. Qed.

End RegistryProps.

(** ** The resource owner map and [read_resource] *)

Module ResourceProps.

Import Base Server Dispatch.

Section Routing.

Variable urlparse : string → outcome (string * string).

Lemma foldlM_app {A B} (f : A → B → outcome A) a l1 l2 :
  foldlM f a (l1 ++ l2) =
  match foldlM f a l1 with
  | Returns a' => foldlM f a' l2
  | Raises e => Raises e
  end.
Proof.
  revert a. induction l1 as [|x l1 IH]; intros a; simpl; [done|].
  destruct (f a x); [apply IH | done].
Qed.

Lemma foldlM_fmap {A B C} (f : A → B → outcome A) (g : C → B) a l :
  foldlM f a (g <$> l) = foldlM (λ a x, f a (g x)) a l.
Proof.
  revert a. induction l as [|x l IH]; intros a; simpl; [done|].
  destruct (f a (g x)); [apply IH | done].
Qed.

Lemma claim_all_flat owner chs :
  claim_all urlparse owner chs =
  foldlM (λ o pr, claim_key urlparse pr.1 o pr.2) owner (declared_resources chs).
Proof.
  unfold claim_all, declared_resources. revert owner.
  induction chs as [|c chs IH]; intros owner; [done|].
  rewrite bind_cons, foldlM_app, foldlM_fmap. cbn [foldlM fst snd].
  destruct (foldlM _ owner (get_resources c.2)); [apply IH | done].
Qed.

Lemma claim_key_lookup (cid : Z) (owner owner' : gmap (string * string) (option Z))
    (r : Resource) (K : string * string) :
  claim_key urlparse cid owner r = Returns owner' →
  ∃ k, urlparse (uri r) = Returns k ∧
       owner' !! K = if decide (k = K) then claim (owner !! K) cid else owner !! K.
Proof.
  unfold claim_key. destruct (urlparse (uri r)) as [k|]; [|done].
  intros [= <-]. exists k. split; [done|].
  case_decide as Hk.
  - subst k. unfold claim. destruct (owner !! K) as [o|]; [case_decide|];
      by rewrite lookup_insert_eq.
  - destruct (owner !! k) as [o|]; [case_decide|]; by rewrite lookup_insert_ne.
Qed.

Lemma claim_fold_lookup (l : list (Z * Resource))
    (owner owner' : gmap (string * string) (option Z)) (K : string * string) :
  foldlM (λ o pr, claim_key urlparse pr.1 o pr.2) owner l = Returns owner' →
  owner' !! K = foldl claim (owner !! K) (claimants urlparse l K).
Proof.
  revert owner. induction l as [|pr l IH]; intros owner; simpl.
  - by intros [= <-].
  - destruct (claim_key urlparse pr.1 owner pr.2) as [o1|] eqn:Hstep; [|done].
    intros Hrest. rewrite (IH _ Hrest).
    destruct (claim_key_lookup _ _ _ _ K Hstep) as (k & -> & ->).
    by case_decide.
Qed.

Lemma claim_fold_returns (l : list (Z * Resource))
    (owner : gmap (string * string) (option Z)) :
  (∀ pr, pr ∈ l → is_Some (returned (urlparse (uri pr.2)))) →
  ∃ owner', foldlM (λ o pr, claim_key urlparse pr.1 o pr.2) owner l = Returns owner'.
Proof.
  revert owner. induction l as [|pr l IH]; intros owner Hall; simpl; [by eexists|].
  unfold claim_key at 1.
  destruct (Hall pr) as [k Hk]; [by left|].
  destruct (urlparse (uri pr.2)); [|done].
  apply IH. intros pr' Hpr'. apply Hall. by right.
Qed.

(** *** A key claimed by two challenges *)






Lemma elem_of_claimants chs cid K :
  declares_under urlparse chs cid K →
  cid ∈ claimants urlparse (declared_resources chs) K.
Proof.
  intros (ch & r & Hch & Hr & Hparse). unfold claimants.
  apply list_elem_of_omap. exists (cid, r). split.
  - unfold declared_resources. apply list_elem_of_bind.
    exists (cid, ch). split; [|done]. simpl. apply list_elem_of_fmap. eauto.
  - simpl. rewrite Hparse. by rewrite decide_True.
Qed.

(** *** The owner map after [__init__] *)

Lemma init_returns chs self :
  __init__ urlparse chs = Returns self →
  challenges self = chs ∧
  _tool_registry self = reg_tools (_build_tool_registry chs) ∧
  _unique_tool_registry self = reg_unique (_build_tool_registry chs) ∧
  ∃ owner, claim_all urlparse ∅ chs = Returns owner ∧
           _resource_owner self = <[("vulnmcp", "docs") := Some 2]> owner.
Proof.
  unfold __init__, _build_resource_owner_map.
  destruct (claim_all urlparse ∅ chs) as [owner|]; [|done].
  intros [= <-]. simpl. repeat split; [done..|]. by exists owner.
Qed.

Lemma init_total chs :
  addresses_parse urlparse chs → ∃ self, __init__ urlparse chs = Returns self.
Proof.
  intros Hparse. unfold __init__, _build_resource_owner_map.
  rewrite claim_all_flat.
  destruct (claim_fold_returns _ ∅ Hparse) as [owner ->]. by eexists.
Qed.

Lemma owner_lookup chs self K :
  __init__ urlparse chs = Returns self →
  _resource_owner self !! K =
  if decide (K = ("vulnmcp", "docs")) then Some (Some 2)
  else foldl claim None (claimants urlparse (declared_resources chs) K).
Proof.
  intros (_ & _ & _ & owner & Hclaim & ->)%init_returns.
  rewrite claim_all_flat in Hclaim.
  case_decide as HK.
  - subst K. apply lookup_insert_eq.
  - rewrite lookup_insert_ne by done.
    rewrite (claim_fold_lookup _ _ _ K Hclaim). by rewrite lookup_empty.
Qed.

(** *** Routing *)


Lemma route_not_found self a K :
  a ≠ "vulnmcp://welcome" →
  Forall (λ c, ¬ declares a c) (challenges self) →
  urlparse a = Returns K →
  default None (_resource_owner self !! K) = None →
  route_resource urlparse self a = Returns NotFound.
Proof.
  intros Ha Hnone Hparse Howner. unfold route_resource.
  rewrite decide_False by done.
  assert (list_find (declares a) (challenges self) = None) as ->
    by (by apply list_find_None).
  by rewrite Hparse, Howner.
Qed.


End Routing.



End ResourceProps.

(** ** Duplicate bare names inside one challenge *)

Module BuildProps.

Import Base Server Dispatch.

(** C8, amended.  When a challenge declares the same bare name more than
    once, the build does not fail (provided every declared resource address
    parses): the server is constructed, the namespaced table maps the
    namespaced name of the duplicated operation to its (unit id, bare name)
    pair, and the bare name gets no alias. *)
Theorem duplicate_names_build_silently urlparse chs cid ch n :
  (cid, ch) ∈ chs →
  (1 < length (filter (λ m, m = n) (name <$> get_tools ch)))%nat →
  addresses_parse urlparse chs →
  ∃ self, __init__ urlparse chs = Returns self ∧
    _tool_registry self !! ns_name cid n = Some (cid, n) ∧
    _unique_tool_registry self !! n = None.
Proof.
  intros Hch Hdup Hparse.
  destruct (ResourceProps.init_total urlparse chs Hparse) as [self Hinit].
  exists self. split; [done|].
  apply ResourceProps.init_returns in Hinit as (_ & -> & -> & _).
  split.
  - unfold _build_tool_registry. rewrite RegistryProps.reg_tools_expose_all.
    apply RegistryProps.reg_tools_lookup. left.
    apply RegistryProps.elem_of_declared_pairs. exists ch. split; [done|].
    destruct (filter _ _) as [|m ms] eqn:Hfilter; [simpl in Hdup; lia|].
    assert (m ∈ filter (λ m, m = n) (name <$> get_tools ch)) as Hm
      by (rewrite Hfilter; by left).
    by apply list_elem_of_filter in Hm as [-> ?].
  - rewrite RegistryProps.alias_lookup.
    pose proof (RegistryProps.occurrences_ge chs cid ch n Hch).
    rewrite decide_False by lia. done.
Qed.

Lemma duplicate_names_build_silently_witness :
  (1, challenge_with [] ["check"; "check"] []) ∈ check_duplicated ∧
  (1 < length (filter (λ m, m = "check")
                 (name <$> get_tools (challenge_with [] ["check"; "check"] []))))%nat ∧
  addresses_parse urlparse_model check_duplicated ∧
  ∃ self, __init__ urlparse_model check_duplicated = Returns self ∧
    _tool_registry self !! ns_name 1 "check" = Some (1, "check") ∧
    _unique_tool_registry self !! "check" = None.
Proof.
  assert ((1, challenge_with [] ["check"; "check"] []) ∈ check_duplicated) as Hin
    by (by left).
  assert (addresses_parse urlparse_model check_duplicated) as Hparse.
  { intros pr Hpr. vm_compute in Hpr. by apply elem_of_nil in Hpr. }
  split; [exact Hin|]. split; [vm_compute; lia|]. split; [exact Hparse|].
  apply (duplicate_names_build_silently urlparse_model check_duplicated 1
           (challenge_with [] ["check"; "check"] []) "check");
    [exact Hin | vm_compute; lia | exact Hparse].
Defined.

End BuildProps.

(** * Further properties *)

(** ** The progress store: what every call does *)

Module ScoringRuns.

Import Scoring Progress.
Local Open Scope py_scope.

Section Runs.

Variable recursion_limit : nat.

Lemma load_cases user w :
  (files w !! user = Some Corrupt ∧
   load_progress recursion_limit user w = (Raises RecursionError, w)) ∨
  (∃ p w0, load_progress recursion_limit user w = (Returns p, w0) ∧
           files w0 = files w ∧ loaded w user p).
Proof.
  destruct (files w !! user) as [[|p]|] eqn:Hf.
  - left. split; [done|]. unfold load_progress.
    by apply ScoringProps.load_progress_at_corrupt.
  - right. exists p, w. rewrite (ScoringProps.load_progress_stored _ _ _ _ Hf).
    split; [done|]. split; [done|]. by left.
  - right. eexists _, _. rewrite (ScoringProps.load_progress_missing _ _ _ Hf).
    split; [done|]. split; [done|]. right. split; [done|]. by eexists _, _.
Qed.

Lemma loaded_files w0 w user p :
  files w0 = files w → loaded w user p → loaded w0 user p.
Proof. unfold loaded. by intros ->. Qed.

Lemma op_effect_files o w0 w w' :
  files w0 = files w → op_effect o w0 w' → op_effect o w w'.
Proof.
  intros Hf [Heq | (user & p & p' & Hl & Hstep & Heq)].
  - left. congruence.
  - right. exists user, p, p'. split; [|split; [done|congruence]].
    unfold loaded in *. by rewrite <-Hf.
Qed.

(** The whole of [complete_challenge] on a record that holds the entry. *)
Lemma complete_challenge_run user cid s w p cp :
  files w !! user = Some (Stored p) →
  challenge_progress p !! cid = Some cp →
  complete_challenge recursion_limit user cid s w =
  let q := updated p cid cp s (clock w) in
  let t := if completed cp then clock w else S (clock w) in
  (Returns {| r_score := s;
              r_total_score := total_score q;
              r_new_badges := _check_badges q;
              r_challenges_completed := challenges_completed q |},
   {| files := <[username p := Stored (with_last_activity t (awarded q))]> (files w);
      clock := S t |}).
Proof.
  intros Hf Hcp. unfold complete_challenge, bind.
  rewrite (ScoringProps.load_progress_stored _ _ _ _ Hf).
  rewrite Hcp. simpl. unfold lookup_cp. rewrite Hcp. simpl.
  unfold updated. destruct (completed cp) eqn:Hc; simpl; [|done].
  by case_bool_decide.
Qed.

Lemma start_challenge_effect o user cid w :
  op_effect o w (start_challenge recursion_limit user cid w).2.
Proof.
  unfold start_challenge, bind at 1.
  destruct (load_cases user w) as [[_ ->] | (p & w0 & -> & Hf & Hl)]; [by left|].
  apply (op_effect_files _ w0); [done|]. apply (loaded_files w0) in Hl; [|done].
  unfold bind. destruct (challenge_progress p !! cid) as [cp|] eqn:Hcp; simpl;
    right; exists user, p; eexists; (split; [done|]); (split; [|reflexivity]).
  - apply step_touch.
  - by apply step_start.
Qed.

Lemma record_attempt_effect o user cid w :
  op_effect o w (record_attempt recursion_limit user cid w).2.
Proof.
  unfold record_attempt, bind at 1.
  destruct (load_cases user w) as [[_ ->] | (p & w0 & -> & Hf & Hl)]; [by left|].
  apply (op_effect_files _ w0); [done|]. apply (loaded_files w0) in Hl; [|done].
  unfold bind. destruct (challenge_progress p !! cid) as [cp|] eqn:Hcp; simpl;
    right; exists user, p; eexists; (split; [done|]); (split; [|reflexivity]).
  - by apply step_attempt.
  - apply step_touch.
Qed.

Lemma use_hint_effect o user cid lvl w :
  op_effect o w (use_hint recursion_limit user cid lvl w).2.
Proof.
  unfold use_hint, bind at 1.
  destruct (load_cases user w) as [[_ ->] | (p & w0 & -> & Hf & Hl)]; [by left|].
  apply (op_effect_files _ w0); [done|]. apply (loaded_files w0) in Hl; [|done].
  unfold bind. destruct (challenge_progress p !! cid) as [cp|] eqn:Hcp; simpl;
    right; exists user, p; eexists; (split; [done|]); (split; [|reflexivity]).
  - by apply step_hint.
  - apply step_touch.
Qed.

Lemma complete_challenge_effect user cid s w :
  op_effect (Complete user cid s) w (complete_challenge recursion_limit user cid s w).2.
Proof.
  destruct (files w !! user) as [[|p]|] eqn:Hf.
  - unfold complete_challenge, bind at 1, load_progress.
    rewrite ScoringProps.load_progress_at_corrupt by done. by left.
  - destruct (challenge_progress p !! cid) as [cp|] eqn:Hcp.
    + rewrite (complete_challenge_run _ _ _ _ _ _ Hf Hcp). simpl.
      right. exists user, p. eexists. split; [by left|]. split; [|reflexivity].
      by eapply step_complete.
    + unfold complete_challenge, bind at 1.
      rewrite (ScoringProps.load_progress_stored _ _ _ _ Hf).
      unfold bind at 1. rewrite Hcp. simpl.
      pose proof (start_challenge_effect (Complete user cid s) user cid w) as He.
      unfold bind, lookup_cp. rewrite Hcp.
      by destruct (start_challenge recursion_limit user cid w) as [[]]; unfold raise.
  - unfold complete_challenge, bind at 1.
    rewrite ScoringProps.load_progress_missing by done.
    unfold bind at 1; simpl. rewrite lookup_empty. simpl.
    set (w1 := {| files := files w; clock := S (S (clock w)) |}).
    pose proof (start_challenge_effect (Complete user cid s) user cid w1) as He.
    apply (op_effect_files _ w1 w) in He; [|done].
    unfold bind, lookup_cp. simpl. rewrite lookup_empty.
    by destruct (start_challenge recursion_limit user cid w1) as [[]]; unfold raise.
Qed.

Lemma run_op_effect o w : op_effect o w (run_op recursion_limit o w).
Proof.
  destruct o; simpl.
  - apply start_challenge_effect.
  - apply record_attempt_effect.
  - apply use_hint_effect.
  - apply complete_challenge_effect.
Qed.

End Runs.

End ScoringRuns.

(** ** The progress store: invariants of the records *)

Module ScoringInvariants.

Import Scoring Progress.
Local Open Scope py_scope.

(** *** A record property kept by every call is kept by every sequence *)

Section Invariant.

Variable I : UserProgress → Prop.
Variable ok : op → Prop.
Hypothesis I_new : ∀ user t1 t2, I (new_progress user t1 t2).
Hypothesis I_step : ∀ o p p', ok o → I p → record_step o p p' → I p'.

Lemma op_effect_invariant o w w' :
  ok o → (∀ user p, files w !! user = Some (Stored p) → I p) →
  op_effect o w w' →
  ∀ user p, files w' !! user = Some (Stored p) → I p.
Proof.
  intros Ho Hw [Heq | (u & p0 & p' & Hl & Hstep & Heq)] user p; rewrite Heq;
    [apply Hw|].
  rewrite lookup_insert. case_decide; [|apply Hw].
  intros [= <-]. apply (I_step o p0); [done| |done].
  destruct Hl as [Hst | (_ & t1 & t2 & ->)]; [by apply (Hw u) | apply I_new].
Qed.

Lemma run_ops_invariant recursion_limit ops w :
  (∀ user p, files w !! user = Some (Stored p) → I p) →
  Forall ok ops →
  ∀ user p, files (run_ops recursion_limit ops w) !! user = Some (Stored p) → I p.
Proof.
  intros Hw Hops. revert w Hw.
  induction Hops as [|o ops Ho _ IH]; intros w Hw; [done|].
  simpl. apply IH. apply (op_effect_invariant o w); [done..|].
  apply ScoringRuns.run_op_effect.
Qed.

End Invariant.

(** *** Sums over the entries *)

Lemma sum_over_empty f : sum_over f ∅ = 0.
Proof. unfold sum_over. by rewrite map_fold_empty. Qed.

Lemma sum_over_fresh f (d : gmap Z ChallengeProgress) i x :
  d !! i = None → sum_over f (<[i := x]> d) = f x + sum_over f d.
Proof.
  intros H. unfold sum_over.
  rewrite map_fold_insert_L; [done | intros; lia | done].
Qed.

Lemma sum_over_update f (d : gmap Z ChallengeProgress) i old x :
  d !! i = Some old →
  sum_over f (<[i := x]> d) = sum_over f d + (f x - f old).
Proof.
  intros H.
  rewrite <-(insert_delete_eq d i x).
  rewrite sum_over_fresh by apply lookup_delete_eq.
  rewrite <-(insert_delete_id d i old H) at 2.
  rewrite sum_over_fresh by apply lookup_delete_eq. lia.
Qed.

(** *** The counters *)

Lemma counters_ok_new user t1 t2 : counters_ok (new_progress user t1 t2).
Proof. split; simpl; by rewrite sum_over_empty. Qed.

Lemma counters_ok_step o p p' :
  counters_ok p → record_step o p p' → counters_ok p'.
Proof.
  intros [Hcc Hat] Hstep.
  destruct Hstep as [p t|p cid t0 t Hnone|p cid cp t Hcp|p cid cp t Hcp
                    |user p cid cp s t0 t _ Hcp]; unfold counters_ok; simpl.
  - done.
  - rewrite !sum_over_fresh by done. simpl. lia.
  - rewrite !(sum_over_update _ _ _ cp) by done. simpl. lia.
  - rewrite !(sum_over_update _ _ _ cp) by done. simpl. lia.
  - unfold updated. destruct (completed cp) eqn:Hc; [case_bool_decide|]; simpl;
      rewrite ?(sum_over_update _ _ _ cp) by done; simpl; rewrite ?Hc; lia.
Qed.

(** *** Badges *)

Lemma awarded_keeps q b : b ∈ badges q → b ∈ badges (awarded q).
Proof.
  intros Hb. unfold awarded. simpl.
  apply elem_of_remove_dups, elem_of_app. by left.
Qed.

Lemma awarded_new q b : b ∈ _check_badges q → b ∈ badges (awarded q).
Proof.
  intros Hb. unfold awarded. simpl.
  apply elem_of_remove_dups, elem_of_app. by right.
Qed.

Lemma held_or_not b (bs : list string) :
  b ∈ bs ∨ contains b bs = false.
Proof.
  unfold contains. destruct (decide (b ∈ bs)); [by left|right].
  by apply bool_decide_eq_false_2.
Qed.

Lemma award_first_blood q :
  challenges_completed q = 1 → "first_blood" ∈ badges (awarded q).
Proof.
  intros Hcc. destruct (held_or_not "first_blood" (badges q)) as [?|Hno];
    [by apply awarded_keeps|].
  apply awarded_new. unfold _check_badges.
  rewrite Hno, bool_decide_eq_true_2 by done. simpl. by left.
Qed.

Lemma award_halfway q :
  4 ≤ challenges_completed q → "halfway" ∈ badges (awarded q).
Proof.
  intros Hcc. destruct (held_or_not "halfway" (badges q)) as [?|Hno];
    [by apply awarded_keeps|].
  apply awarded_new. unfold _check_badges.
  rewrite Hno, (bool_decide_eq_true_2 (4 ≤ _)) by done. cbn [andb negb].
  rewrite !elem_of_app. right. right. right. left. by left.
Qed.

Lemma award_champion q :
  challenges_completed q = 8 → "champion" ∈ badges (awarded q).
Proof.
  intros Hcc. destruct (held_or_not "champion" (badges q)) as [?|Hno];
    [by apply awarded_keeps|].
  apply awarded_new. unfold _check_badges.
  rewrite Hno, (bool_decide_eq_true_2 (_ = 8)) by done. cbn [andb negb].
  rewrite !elem_of_app. right. right. right. right. left. by left.
Qed.

Lemma award_perfect q :
  5 ≤ challenges_completed q →
  map_Forall (λ _ cp, entry_ok cp) (challenge_progress q) →
  "perfect_score" ∈ badges (awarded q).
Proof.
  intros Hcc Hall. destruct (held_or_not "perfect_score" (badges q)) as [?|Hno];
    [by apply awarded_keeps|].
  apply awarded_new. unfold _check_badges.
  rewrite Hno, (bool_decide_eq_true_2 (5 ≤ _)) by done.
  assert (forallb (λ cp, bool_decide (score cp = best_score cp))
            (filter (λ cp, completed cp = true) (values (challenge_progress q)))
          = true) as ->.
  { apply forallb_forall. intros cp Hcp. apply bool_decide_eq_true_2.
    apply list_elem_of_In, list_elem_of_filter in Hcp as [_ Hcp].
    unfold values in Hcp. apply list_elem_of_fmap in Hcp as ([i cp'] & -> & Hin).
    apply elem_of_map_to_list in Hin. exact (proj1 (Hall _ _ Hin)). }
  cbn [andb negb]. rewrite !elem_of_app. do 5 right. by left.
Qed.

Lemma stored_Some w user p :
  stored w user = Some p ↔ files w !! user = Some (Stored p).
Proof.
  unfold stored. destruct (files w !! user) as [[|q]|]; naive_solver.
Qed.

Lemma updated_badges p cid cp s t : badges (updated p cid cp s t) = badges p.
Proof. unfold updated. destruct (completed cp); [case_bool_decide|]; done. Qed.

Lemma updated_username p cid cp s t : username (updated p cid cp s t) = username p.
Proof. unfold updated. destruct (completed cp); [case_bool_decide|]; done. Qed.

Lemma updated_started_at p cid cp s t :
  started_at (updated p cid cp s t) = started_at p.
Proof. unfold updated. destruct (completed cp); [case_bool_decide|]; done. Qed.

Lemma updated_completed_count p cid cp s t :
  challenges_completed (updated p cid cp s t) =
  challenges_completed p + (if completed cp then 0 else 1).
Proof.
  unfold updated. destruct (completed cp); [case_bool_decide|]; simpl; lia.
Qed.

Lemma milestones_ok_new user t1 t2 : milestones_ok (new_progress user t1 t2).
Proof. unfold milestones_ok. simpl. repeat split; lia. Qed.

Lemma milestones_ok_step o p p' :
  milestones_ok p → record_step o p p' → milestones_ok p'.
Proof.
  intros Hp Hstep.
  destruct Hstep as [p t|p cid t0 t Hnone|p cid cp t Hcp|p cid cp t Hcp
                    |user p cid cp s t0 t _ Hcp]; [done..|].
  destruct Hp as (Hfb & Hhw & Hch).
  pose proof (updated_completed_count p cid cp s t0) as Hcc.
  pose proof (updated_badges p cid cp s t0) as Hb.
  set (q := updated p cid cp s t0) in *.
  assert (challenges_completed p ≤ challenges_completed q ≤ challenges_completed p + 1)
    as Hrange by (destruct (completed cp); lia).
  unfold milestones_ok.
  change (badges (with_last_activity t (awarded q))) with (badges (awarded q)).
  change (challenges_completed (with_last_activity t (awarded q)))
    with (challenges_completed q).
  split; [|split].
  - intros H1. destruct (decide (challenges_completed q = 1)) as [?|Hne];
      [by apply award_first_blood|].
    apply awarded_keeps. rewrite Hb. apply Hfb. lia.
  - apply award_halfway.
  - intros H8. destruct (decide (challenges_completed q = 8)) as [?|Hne];
      [by apply award_champion|].
    apply awarded_keeps. rewrite Hb. apply Hch. lia.
Qed.

Lemma record_ok_step o p p' :
  nonnegative o → record_ok p → record_step o p p' → record_ok p'.
Proof.
  intros Ho Hp Hstep.
  destruct Hstep as [p t|p cid t0 t Hnone|p cid cp t Hcp|p cid cp t Hcp
                    |user p cid cp s t0 t -> Hcp].
  - by apply ScoringProps.record_ok_touch.
  - apply ScoringProps.record_ok_touch. by apply ScoringProps.record_ok_start.
  - apply ScoringProps.record_ok_touch. destruct Hp as [Hall Hsum]. split; simpl.
    + apply ScoringProps.entries_ok_insert; [done|]. exact (Hall _ _ Hcp).
    + rewrite (ScoringProps.completed_sum_update _ _ cp) by done.
      unfold contribution; simpl. lia.
  - apply ScoringProps.record_ok_touch. destruct Hp as [Hall Hsum]. split; simpl.
    + apply ScoringProps.entries_ok_insert; [done|]. exact (Hall _ _ Hcp).
    + rewrite (ScoringProps.completed_sum_update _ _ cp) by done.
      unfold contribution; simpl. lia.
  - apply ScoringProps.record_ok_touch, ScoringProps.record_ok_badges.
    simpl in Ho. unfold updated.
    destruct (completed cp) eqn:Hc; [case_bool_decide|].
    + by apply ScoringProps.record_ok_better_score.
    + done.
    + by apply ScoringProps.record_ok_first_completion.
Qed.

Lemma perfect_ok_step o p p' :
  nonnegative o → record_ok p ∧ perfect_ok p → record_step o p p' →
  record_ok p' ∧ perfect_ok p'.
Proof.
  intros Ho [Hok Hperfect] Hstep.
  pose proof (record_ok_step o p p' Ho Hok Hstep) as Hok'.
  split; [done|].
  destruct Hstep as [p t|p cid t0 t Hnone|p cid cp t Hcp|p cid cp t Hcp
                    |user p cid cp s t0 t -> Hcp]; [done..|].
  intros H5. apply award_perfect; [done|]. exact (proj1 Hok').
Qed.

(** *** Progress is never lost *)

Lemma entry_le_refl cp : entry_le cp cp.
Proof. unfold entry_le. repeat split; (done || lia). Qed.

Lemma record_le_refl p : record_le p p.
Proof.
  unfold record_le. repeat split; [done|]. intros cid cp Hcp.
  exists cp. split; [done | apply entry_le_refl].
Qed.

Lemma entry_le_trans a b c : entry_le a b → entry_le b c → entry_le a c.
Proof.
  unfold entry_le. intros (?&?&?&?&?) (?&?&?&?&?).
  repeat split; [congruence | tauto | lia..].
Qed.

Lemma record_le_trans p q r : record_le p q → record_le q r → record_le p r.
Proof.
  intros (Hu1 & Hs1 & Hb1 & He1) (Hu2 & Hs2 & Hb2 & He2).
  unfold record_le. split; [congruence|]. split; [congruence|].
  split; [by auto|]. intros cid cp Hcp.
  destruct (He1 _ _ Hcp) as (cp1 & Hcp1 & Hle1).
  destruct (He2 _ _ Hcp1) as (cp2 & Hcp2 & Hle2).
  exists cp2. split; [done|]. by eapply entry_le_trans.
Qed.

Lemma record_le_changed p cid cp x (q : UserProgress) :
  challenge_progress p !! cid = Some cp → entry_le cp x →
  username q = username p → started_at q = started_at p →
  (∀ b, b ∈ badges p → b ∈ badges q) →
  challenge_progress q = <[cid := x]> (challenge_progress p) →
  record_le p q.
Proof.
  intros Hcp Hle Hu Hs Hb Hd. unfold record_le.
  split; [done|]. split; [done|]. split; [done|].
  intros i cpi Hi. rewrite Hd. destruct (decide (i = cid)) as [->|Hne].
  - rewrite lookup_insert_eq. exists x. split; [done|]. congruence.
  - rewrite lookup_insert_ne by done. exists cpi. split; [done | apply entry_le_refl].
Qed.

Lemma record_le_touch p q t : record_le p q → record_le p (with_last_activity t q).
Proof. by intros (?&?&?&?). Qed.

Lemma record_step_le o p p' : record_step o p p' → record_le p p'.
Proof.
  intros Hstep.
  destruct Hstep as [p t|p cid t0 t Hnone|p cid cp t Hcp|p cid cp t Hcp
                    |user p cid cp s t0 t _ Hcp]; apply record_le_touch.
  - apply record_le_refl.
  - unfold record_le. simpl. repeat split; [done|]. intros i cpi Hi.
    rewrite lookup_insert_ne by congruence. exists cpi.
    split; [done | apply entry_le_refl].
  - apply (record_le_changed p cid cp (with_attempts (attempts cp + 1) cp));
      [done| |done..]. unfold entry_le. simpl. repeat split; (done || lia).
  - apply (record_le_changed p cid cp (Scoring.with_hints_used (hints_used cp + 1) cp));
      [done| |done..]. unfold entry_le. simpl. repeat split; (done || lia).
  - apply (record_le_trans _ (updated p cid cp s t0)).
    + unfold updated. destruct (completed cp) eqn:Hc; [case_bool_decide|].
      * eapply (record_le_changed p cid cp); [done| |done..].
        unfold entry_le. simpl. repeat split; (done || lia).
      * apply record_le_refl.
      * eapply (record_le_changed p cid cp); [done| |done..].
        unfold entry_le. simpl. repeat split; (done || lia).
    + unfold record_le. simpl. repeat split; [|by eauto using entry_le_refl].
      intros b Hb. by apply elem_of_remove_dups, elem_of_app; left.
Qed.

Lemma loaded_username w user p : consistent w → loaded w user p → username p = user.
Proof. intros Hw [Hst | (_ & t1 & t2 & ->)]; [by apply Hw | done]. Qed.

Lemma op_effect_le o w w' :
  consistent w → op_effect o w w' → consistent w' ∧ world_le w w'.
Proof.
  intros Hw [Heq | (u & p0 & p' & Hl & Hstep & Heq)].
  - split.
    + intros user p. rewrite Heq. apply Hw.
    + intros user p Hp. exists p. rewrite Heq. split; [done | apply record_le_refl].
  - pose proof (loaded_username _ _ _ Hw Hl) as Hu.
    pose proof (record_step_le _ _ _ Hstep) as Hle.
    split.
    + intros user p. rewrite Heq, lookup_insert. case_decide; [|apply Hw].
      intros [= <-]. destruct Hle as [-> _]. congruence.
    + intros user p Hp. rewrite Heq, lookup_insert. case_decide as Hk.
      * exists p'. split; [done|]. subst user.
        destruct Hl as [Hst | [Hnone _]]; [|congruence].
        rewrite Hu in Hp. by simplify_eq.
      * exists p. split; [done | apply record_le_refl].
Qed.

Lemma run_ops_le recursion_limit ops w :
  consistent w →
  consistent (run_ops recursion_limit ops w) ∧
  world_le w (run_ops recursion_limit ops w).
Proof.
  revert w. induction ops as [|o ops IH]; intros w Hw.
  - split; [done|]. intros user p Hp. exists p. split; [done | apply record_le_refl].
  - simpl.
    destruct (op_effect_le o w (run_op recursion_limit o w) Hw
                (ScoringRuns.run_op_effect recursion_limit o w)) as [Hc1 Hle1].
    destruct (IH _ Hc1) as [Hc2 Hle2]. split; [done|].
    intros user p Hp. destruct (Hle1 _ _ Hp) as (p1 & Hp1 & Hr1).
    destruct (Hle2 _ _ Hp1) as (p2 & Hp2 & Hr2).
    exists p2. split; [done|]. by eapply record_le_trans.
Qed.

End ScoringInvariants.

(** ** The progress store: further properties *)

Module ScoringFacts.

Import Scoring Progress.
Local Open Scope py_scope.

(** X1. On a user whose progress file does not load, every operation of the
    store raises [RecursionError] and writes nothing: the file is never
    repaired by the store. *)
Theorem corrupt_file_blocks_every_operation recursion_limit user cid lvl s w :
  files w !! user = Some Corrupt →
  start_challenge recursion_limit user cid w = (Raises RecursionError, w) ∧
  record_attempt recursion_limit user cid w = (Raises RecursionError, w) ∧
  use_hint recursion_limit user cid lvl w = (Raises RecursionError, w) ∧
  complete_challenge recursion_limit user cid s w = (Raises RecursionError, w).
Proof.
  intros Hf.
  unfold start_challenge, record_attempt, use_hint, complete_challenge, bind,
    load_progress.
  by rewrite !(ScoringProps.load_progress_at_corrupt _ _ _ Hf).
Qed.

Lemma corrupt_file_blocks_every_operation_witness :
  let w := {| files := {["player" := Corrupt]}; clock := 7%nat |} in
  files w !! "player" = Some Corrupt ∧
  start_challenge 1000 "player" 3 w = (Raises RecursionError, w) ∧
  record_attempt 1000 "player" 3 w = (Raises RecursionError, w) ∧
  use_hint 1000 "player" 3 1 w = (Raises RecursionError, w) ∧
  complete_challenge 1000 "player" 3 200 w = (Raises RecursionError, w).
Proof.
  intros w. assert (files w !! "player" = Some Corrupt) as H by reflexivity.
  split; [exact H|].
  exact (corrupt_file_blocks_every_operation 1000 "player" 3 1 200 w H).
Defined.

(** X3. The counters of every stored record agree with its entries after any
    sequence of operations (whatever the submitted scores): the number of
    completed units is the number of entries marked completed, and the total
    number of attempts is the sum of the attempts of the entries. *)
Theorem counters_agree_with_entries recursion_limit ops w :
  (∀ user p, stored w user = Some p → counters_ok p) →
  ∀ user p, stored (run_ops recursion_limit ops w) user = Some p → counters_ok p.
Proof.
  intros Hw user p Hp. apply ScoringInvariants.stored_Some in Hp.
  refine (ScoringInvariants.run_ops_invariant counters_ok (λ _, True)
            ScoringInvariants.counters_ok_new _ recursion_limit ops w _ _ user p Hp).
  - intros o q q' _. apply ScoringInvariants.counters_ok_step.
  - intros u q Hq. apply (Hw u). by apply ScoringInvariants.stored_Some.
  - by apply Forall_true.
Qed.

Lemma counters_agree_with_entries_witness :
  let ops := [Start "player" 3; Attempt "player" 3; Attempt "player" 4;
              Complete "player" 3 (-5); Complete "player" 4 10;
              Complete "player" 4 10; Attempt "player" 4] in
  (∀ user p, stored empty_world user = Some p → counters_ok p) ∧
  ∀ user p, stored (run_ops 1000 ops empty_world) user = Some p → counters_ok p.
Proof.
  intros ops.
  assert (∀ user p, stored empty_world user = Some p → counters_ok p) as Hw.
  { intros user p Hp. unfold stored in Hp. simpl in Hp.
    by rewrite lookup_empty in Hp. }
  split; [exact Hw|]. exact (counters_agree_with_entries 1000 ops empty_world Hw).
Defined.

(** X4. Progress is never lost: when every record sits in the file of its
    own user, then after any sequence of operations every record that was
    stored is still stored, with the same user and start time, all the badges
    it had, and all its entries; a unit that was completed is still completed,
    and its best score, attempts and hints used have not decreased. *)
Theorem progress_is_never_lost recursion_limit ops w :
  consistent w →
  consistent (run_ops recursion_limit ops w) ∧
  ∀ user p, stored w user = Some p →
    ∃ p', stored (run_ops recursion_limit ops w) user = Some p' ∧ record_le p p'.
Proof.
  intros Hw. destruct (ScoringInvariants.run_ops_le recursion_limit ops w Hw)
    as [Hc Hle].
  split; [done|]. intros user p Hp. apply ScoringInvariants.stored_Some in Hp.
  destruct (Hle _ _ Hp) as (p' & Hp' & Hr). exists p'. split; [|done].
  by apply ScoringInvariants.stored_Some.
Qed.

Lemma progress_is_never_lost_witness :
  let ops := [Complete "player" 3 50; Start "player" 3; Attempt "player" 3;
              Complete "alice" 3 70; Complete "alice" 3 70] in
  consistent completed_world ∧
  consistent (run_ops 1000 ops completed_world) ∧
  ∀ user p, stored completed_world user = Some p →
    ∃ p', stored (run_ops 1000 ops completed_world) user = Some p' ∧ record_le p p'.
Proof.
  intros ops.
  assert (consistent completed_world) as Hw.
  { unfold completed_world.
    apply (ScoringInvariants.run_ops_le 1000 _ empty_world).
    intros user p Hp. simpl in Hp. by rewrite lookup_empty in Hp. }
  split; [exact Hw|]. exact (progress_is_never_lost 1000 ops completed_world Hw).
Defined.

(** X5. The badges tied to the number of completed units are held as soon
    as that number is reached, and stay: after any sequence of operations,
    every stored record with at least one completed unit holds "first_blood",
    with at least four "halfway", and with at least eight "champion". *)
Theorem milestone_badges_are_held recursion_limit ops w :
  (∀ user p, stored w user = Some p → milestones_ok p) →
  ∀ user p, stored (run_ops recursion_limit ops w) user = Some p → milestones_ok p.
Proof.
  intros Hw user p Hp. apply ScoringInvariants.stored_Some in Hp.
  refine (ScoringInvariants.run_ops_invariant milestones_ok (λ _, True)
            ScoringInvariants.milestones_ok_new _ recursion_limit ops w _ _ user p Hp).
  - intros o q q' _. apply ScoringInvariants.milestones_ok_step.
  - intros u q Hq. apply (Hw u). by apply ScoringInvariants.stored_Some.
  - by apply Forall_true.
Qed.

Lemma milestone_badges_are_held_witness :
  let ops := [Start "player" 1; Complete "player" 1 10; Start "player" 2;
              Complete "player" 2 10; Start "player" 3; Complete "player" 3 10;
              Start "player" 4; Complete "player" 4 10; Attempt "player" 4] in
  (∀ user p, stored empty_world user = Some p → milestones_ok p) ∧
  ∀ user p, stored (run_ops 1000 ops empty_world) user = Some p → milestones_ok p.
Proof.
  intros ops.
  assert (∀ user p, stored empty_world user = Some p → milestones_ok p) as Hw.
  { intros user p Hp. unfold stored in Hp. simpl in Hp.
    by rewrite lookup_empty in Hp. }
  split; [exact Hw|]. exact (milestone_badges_are_held 1000 ops empty_world Hw).
Defined.

(** X7. When all submitted scores are nonnegative, the "perfect_score" rule
    only counts completions: after any sequence of operations started from
    files whose records are well formed ([record_ok]: in every entry current
    and best score agree, an entry not completed has score 0, and the total
    is the sum over the completed entries) and hold "perfect_score" if they
    have five completed units, every stored record with at least five
    completed units holds "perfect_score". *)
Theorem perfect_score_only_counts_completions recursion_limit ops w :
  (∀ user p, stored w user = Some p → record_ok p ∧ perfect_ok p) →
  Forall nonnegative ops →
  ∀ user p, stored (run_ops recursion_limit ops w) user = Some p → perfect_ok p.
Proof.
  intros Hw Hops user p Hp. apply ScoringInvariants.stored_Some in Hp.
  refine (proj2 (ScoringInvariants.run_ops_invariant
                   (λ p, record_ok p ∧ perfect_ok p) nonnegative
                   _ _ recursion_limit ops w _ Hops user p Hp)).
  - intros u t1 t2. split; [apply ScoringProps.record_ok_new|].
    unfold perfect_ok. simpl. lia.
  - intros o q q'. apply ScoringInvariants.perfect_ok_step.
  - intros u q Hq. apply (Hw u). by apply ScoringInvariants.stored_Some.
Qed.

Lemma perfect_score_only_counts_completions_witness :
  let ops := [Start "player" 1; Complete "player" 1 10; Start "player" 2;
              Complete "player" 2 0; Start "player" 3; Complete "player" 3 10;
              Start "player" 4; Complete "player" 4 10; Start "player" 5;
              Complete "player" 5 30; Complete "player" 5 20] in
  (∀ user p, stored empty_world user = Some p → record_ok p ∧ perfect_ok p) ∧
  Forall nonnegative ops ∧
  ∀ user p, stored (run_ops 1000 ops empty_world) user = Some p → perfect_ok p.
Proof.
  intros ops.
  assert (∀ user p, stored empty_world user = Some p → record_ok p ∧ perfect_ok p)
    as Hw.
  { intros user p Hp. unfold stored in Hp. simpl in Hp.
    by rewrite lookup_empty in Hp. }
  assert (Forall nonnegative ops) as Hops by (repeat constructor; simpl; lia).
  split; [exact Hw|]. split; [exact Hops|].
  exact (perfect_score_only_counts_completions 1000 ops empty_world Hw Hops).
Defined.

(** *** Completing a unit that was never started *)

Lemma start_challenge_run recursion_limit user cid w p w0 :
  load_progress recursion_limit user w = (Returns p, w0) →
  challenge_progress p !! cid = None →
  start_challenge recursion_limit user cid w =
  (Returns (),
   {| files := <[username p := Stored (with_last_activity (S (clock w0))
                                         (started p cid (clock w0)))]> (files w0);
      clock := S (S (clock w0)) |}).
Proof.
  intros Hload Hcp. unfold start_challenge, bind. rewrite Hload, Hcp. done.
Qed.

Lemma complete_first_on_fresh_entry recursion_limit user cid s w p t :
  files w !! user = Some (Stored p) →
  challenge_progress p !! cid = Some (fresh_entry cid t) →
  ∃ r w', complete_challenge recursion_limit user cid s w = (Returns r, w') ∧
    r_score r = s ∧
    r_total_score r = total_score p + s ∧
    r_challenges_completed r = challenges_completed p + 1.
Proof.
  intros Hf Hcp. rewrite (ScoringRuns.complete_challenge_run _ _ _ _ _ _ _ Hf Hcp).
  eexists _, _. split; [reflexivity|]. simpl. repeat split; lia.
Qed.

(** X2. For a user whose progress file holds a record of that user without
    an entry for the unit, completing the unit fails once: the call raises
    [KeyError] for the unit id, but has stored a freshly started entry for
    it and has left the totals of the record as they were; the same call
    repeated then returns, counting one more completed unit and adding the
    whole score to the total. *)
Theorem complete_without_entry_fails_once recursion_limit user cid s w p :
  files w !! user = Some (Stored p) →
  username p = user →
  challenge_progress p !! cid = None →
  ∃ w1 p1 t,
    complete_challenge recursion_limit user cid s w = (Raises (KeyError cid), w1) ∧
    files w1 !! user = Some (Stored p1) ∧
    challenge_progress p1 !! cid = Some (fresh_entry cid t) ∧
    total_score p1 = total_score p ∧
    challenges_completed p1 = challenges_completed p ∧
    ∃ r w2, complete_challenge recursion_limit user cid s w1 = (Returns r, w2) ∧
      r_score r = s ∧
      r_total_score r = total_score p + s ∧
      r_challenges_completed r = challenges_completed p + 1.
Proof.
  intros Hf Hu Hentry.
  pose proof (ScoringProps.load_progress_stored recursion_limit _ _ _ Hf) as Hload.
  set (p1 := with_last_activity (S (clock w)) (started p cid (clock w))).
  set (w1 := {| files := <[username p := Stored p1]> (files w);
                clock := S (S (clock w)) |}).
  assert (complete_challenge recursion_limit user cid s w = (Raises (KeyError cid), w1))
    as Hrun.
  { unfold complete_challenge, bind at 1. rewrite Hload.
    unfold bind at 1. rewrite Hentry. simpl.
    rewrite (start_challenge_run _ _ _ _ _ _ Hload Hentry).
    unfold bind, lookup_cp. by rewrite Hentry. }
  assert (files w1 !! user = Some (Stored p1)) as Hf1.
  { unfold w1. simpl. rewrite Hu. apply lookup_insert_eq. }
  assert (challenge_progress p1 !! cid = Some (fresh_entry cid (clock w))) as Hcp1.
  { unfold p1. simpl. apply lookup_insert_eq. }
  exists w1, p1, (clock w). split; [done|]. split; [done|]. split; [done|].
  split; [done|]. split; [done|].
  destruct (complete_first_on_fresh_entry recursion_limit user cid s w1 p1 _ Hf1 Hcp1)
    as (r & w2 & Hrun2 & Hs & Ht & Hc).
  exists r, w2. by repeat split.
Qed.

Lemma complete_without_entry_fails_once_witness :
  ∃ p, files started_world !! "player" = Some (Stored p) ∧
  username p = "player" ∧
  challenge_progress p !! 4 = None ∧
  ∃ w1 p1 t,
    complete_challenge 1000 "player" 4 200 started_world = (Raises (KeyError 4), w1) ∧
    files w1 !! "player" = Some (Stored p1) ∧
    challenge_progress p1 !! 4 = Some (fresh_entry 4 t) ∧
    total_score p1 = total_score p ∧
    challenges_completed p1 = challenges_completed p ∧
    ∃ r w2, complete_challenge 1000 "player" 4 200 w1 = (Returns r, w2) ∧
      r_score r = 200 ∧
      r_total_score r = total_score p + 200 ∧
      r_challenges_completed r = challenges_completed p + 1.
Proof.
  eexists. split; [by vm_compute|]. split; [reflexivity|]. split; [by vm_compute|].
  apply (complete_without_entry_fails_once 1000 "player" 4 200 started_world);
    [by vm_compute | reflexivity | by vm_compute].
Defined.

(** *** Newly awarded badges *)

Lemma guarded_badge (X : bool) b (bs : list string) x :
  x ∈ (if X && negb (contains b bs) then [b] else []) → x = b ∧ b ∉ bs.
Proof.
  unfold contains. destruct X; simpl; [|by intros ?%elem_of_nil].
  case_bool_decide; simpl; [by intros ?%elem_of_nil|].
  by intros ->%list_elem_of_singleton.
Qed.

Lemma check_badges_fresh q b :
  b ∈ _check_badges q → (b ∉ badges q) ∧ b ∈ badge_names.
Proof.
  unfold _check_badges, badge_names. cbv zeta. rewrite !elem_of_app.
  intros [H|[H|[H|[H|[H|H]]]]]; apply guarded_badge in H as [-> ?];
    (split; [done|]); set_solver.
Qed.

Lemma check_badges_NoDup q : NoDup (_check_badges q).
Proof.
  unfold _check_badges. cbv zeta.
  repeat match goal with
         | |- context [if ?c then [?b] else []] => destruct c
         end;
    apply (bool_decide_unpack _); by vm_compute.
Qed.

(** X6. A completion never awards a badge twice: the badges it reports as
    new are distinct, none of them was held before, all of them are among the
    six badge identifiers, and the stored badge list afterwards holds exactly
    the old and the new badges, without repetition. *)
Theorem new_badges_are_new recursion_limit user cid s w p cp :
  files w !! user = Some (Stored p) →
  challenge_progress p !! cid = Some cp →
  ∃ r w' p',
    complete_challenge recursion_limit user cid s w = (Returns r, w') ∧
    stored w' (username p) = Some p' ∧
    NoDup (r_new_badges r) ∧
    (∀ b, b ∈ r_new_badges r → (b ∉ badges p) ∧ b ∈ badge_names) ∧
    NoDup (badges p') ∧
    (∀ b, b ∈ badges p' ↔ b ∈ badges p ∨ b ∈ r_new_badges r).
Proof.
  intros Hf Hcp. rewrite (ScoringRuns.complete_challenge_run _ _ _ _ _ _ _ Hf Hcp).
  cbv zeta. set (q := updated p cid cp s (clock w)).
  pose proof (ScoringInvariants.updated_badges p cid cp s (clock w)) as Hb.
  fold q in Hb.
  eexists _, _, _. split; [reflexivity|].
  split. { unfold stored. simpl. by rewrite lookup_insert_eq. }
  simpl. split; [apply check_badges_NoDup|].
  split. { intros b Hin. rewrite <-Hb. by apply check_badges_fresh. }
  split; [apply NoDup_remove_dups|].
  intros b. by rewrite elem_of_remove_dups, elem_of_app, Hb.
Qed.

Lemma new_badges_are_new_witness :
  let cp := {| challenge_id := 3; completed := true; score := 80; attempts := 2;
               hints_used := 0; time_started := Some 0%nat;
               time_completed := Some 1%nat; best_score := 80 |} in
  let p := {| username := "player"; total_score := 80; challenges_completed := 1;
              total_attempts := 2; badges := ["first_blood"];
              challenge_progress := {[3 := cp]};
              started_at := 0%nat; last_activity := 1%nat |} in
  let w := {| files := {["player" := Stored p]}; clock := 2%nat |} in
  ∃ r w' p',
    complete_challenge 1000 "player" 3 95 w = (Returns r, w') ∧
    stored w' "player" = Some p' ∧
    NoDup (r_new_badges r) ∧
    (∀ b, b ∈ r_new_badges r → (b ∉ badges p) ∧ b ∈ badge_names) ∧
    NoDup (badges p') ∧
    (∀ b, b ∈ badges p' ↔ b ∈ badges p ∨ b ∈ r_new_badges r).
Proof.
  intros cp p w.
  apply (new_badges_are_new 1000 "player" 3 95 w p cp); reflexivity.
Defined.

(** *** The leaderboard *)

Lemma insert_row_perm r l : insert_row r l ≡ₚ r :: l.
Proof.
  induction l as [|r' l IH]; simpl; [done|].
  case_decide; [|done]. rewrite IH. apply Permutation_swap.
Qed.

Lemma sort_rows_perm l : sort_rows l ≡ₚ l.
Proof.
  unfold sort_rows. induction l as [|r l IH]; simpl; [done|].
  by rewrite insert_row_perm, IH.
Qed.

Lemma insert_row_sorted r l :
  StronglySorted higher_first l → StronglySorted higher_first (insert_row r l).
Proof.
  induction 1 as [|r' l Hs IH Hall]; simpl.
  - repeat constructor.
  - case_decide as Hlt.
    + constructor; [done|]. rewrite insert_row_perm.
      constructor; [unfold higher_first; lia | done].
    + constructor; [by constructor|].
      constructor; [unfold higher_first; lia|].
      eapply Forall_impl; [exact Hall|]. unfold higher_first. intros; lia.
Qed.

Lemma sort_rows_sorted l : StronglySorted higher_first (sort_rows l).
Proof.
  unfold sort_rows. induction l as [|r l IH]; simpl; [constructor|].
  by apply insert_row_sorted.
Qed.

Lemma read_rows listing w :
  (∀ user, user ∈ listing → is_Some (stored w user)) →
  mapM (λ user, match files w !! user with
                | Some (Stored p) => Some (row_of p)
                | _ => None
                end) listing
  = Some (omap (λ user, row_of <$> stored w user) listing).
Proof.
  intros Hall. apply mapM_Some.
  induction listing as [|user listing IH]; [constructor|].
  destruct (Hall user) as [p Hp]; [by left|].
  cbn [omap list_omap]. rewrite Hp. simpl. constructor.
  - unfold stored in Hp. by destruct (files w !! user) as [[|q]|]; simplify_eq.
  - apply IH. intros u Hu. apply Hall. by right.
Qed.

Lemma read_rows_length listing w :
  (∀ user, user ∈ listing → is_Some (stored w user)) →
  length (omap (λ user, row_of <$> stored w user) listing) = length listing.
Proof.
  induction listing as [|user listing IH]; intros Hall; [done|].
  destruct (Hall user) as [p Hp]; [by left|].
  cbn [omap list_omap]. rewrite Hp. simpl.
  f_equal. apply IH. intros u Hu. apply Hall. by right.
Qed.

(** X8. When every listed file holds a record, the leaderboard is the top
    of the ranking: it is an initial part of the listed users' entries sorted
    by total score, highest first; with a nonnegative limit it has [limit]
    entries, or all of them if there are fewer, and with a negative limit it
    drops that many entries from the low end. *)
Theorem leaderboard_is_top_of_ranking listing limit w :
  (∀ user, user ∈ listing → is_Some (stored w user)) →
  ∃ rows rest,
    get_leaderboard listing limit w = Some rows ∧
    StronglySorted higher_first (rows ++ rest) ∧
    rows ++ rest ≡ₚ omap (λ user, row_of <$> stored w user) listing ∧
    Z.of_nat (length rows) =
      if decide (0 ≤ limit) then limit `min` Z.of_nat (length listing)
      else 0 `max` (Z.of_nat (length listing) + limit).
Proof.
  intros Hall. unfold get_leaderboard. rewrite (read_rows _ _ Hall). simpl.
  set (all := omap (λ user, row_of <$> stored w user) listing).
  assert (length (sort_rows all) = length listing) as Hlen.
  { rewrite sort_rows_perm. by apply read_rows_length. }
  unfold slice_to. rewrite Hlen.
  set (n := if decide (0 ≤ limit) then Z.to_nat limit
            else Z.to_nat (Z.of_nat (length listing) + limit)).
  exists (take n (sort_rows all)), (drop n (sort_rows all)).
  split; [unfold n; by case_decide|].
  rewrite take_drop. split; [apply sort_rows_sorted|].
  split; [apply sort_rows_perm|].
  rewrite length_take, Hlen. unfold n. case_decide; lia.
Qed.

Lemma leaderboard_is_top_of_ranking_witness :
  let w := run_ops 1000 [Start "ann" 1; Complete "ann" 1 40; Start "bob" 1;
                         Complete "bob" 1 90; Start "cy" 2; Complete "cy" 2 90]
             empty_world in
  let listing := ["ann"; "bob"; "cy"] in
  (∀ user, user ∈ listing → is_Some (stored w user)) ∧
  ∃ rows rest,
    get_leaderboard listing 2 w = Some rows ∧
    StronglySorted higher_first (rows ++ rest) ∧
    rows ++ rest ≡ₚ omap (λ user, row_of <$> stored w user) listing ∧
    Z.of_nat (length rows) =
      if decide (0 ≤ 2) then 2 `min` Z.of_nat (length listing)
      else 0 `max` (Z.of_nat (length listing) + 2).
Proof.
  intros w listing.
  assert (∀ user, user ∈ listing → is_Some (stored w user)) as Hall.
  { intros user Hu. unfold listing in Hu.
    repeat (apply elem_of_cons in Hu as [->|Hu];
            [eexists; vm_compute; reflexivity|]).
    by apply elem_of_nil in Hu. }
  split; [exact Hall|]. exact (leaderboard_is_top_of_ranking listing 2 w Hall).
Defined.

(** Equal totals keep the order of the listing: "bob" stays ahead of "cy". *)
Example leaderboard_ties_keep_listing_order :
  lb_username <$>
    default [] (get_leaderboard ["ann"; "bob"; "cy"] 10
                  (run_ops 1000 [Start "ann" 1; Complete "ann" 1 40;
                                 Start "bob" 1; Complete "bob" 1 90;
                                 Start "cy" 2; Complete "cy" 2 90] empty_world))
  = ["bob"; "cy"; "ann"].
Proof. by vm_compute. Qed.

End ScoringFacts.

(** ** Challenges: hints and scores *)

Module BaseFacts.

Import Base Dispatch.

Lemma getitem_in_range {A} (l : list A) i :
  0 ≤ i < Z.of_nat (length l) →
  ∃ x, l !! Z.to_nat i = Some x ∧ getitem l i = Returns x.
Proof.
  intros Hi. destruct (lookup_lt_is_Some_2 l (Z.to_nat i)) as [x Hx]; [lia|].
  exists x. split; [done|]. unfold getitem. cbv zeta.
  destruct (decide (i < 0)); [lia|]. rewrite decide_True by lia. by rewrite Hx.
Qed.

Lemma getitem_from_end {A} (l : list A) i :
  - Z.of_nat (length l) ≤ i < 0 →
  ∃ x, l !! Z.to_nat (Z.of_nat (length l) + i) = Some x ∧ getitem l i = Returns x.
Proof.
  intros Hi.
  destruct (lookup_lt_is_Some_2 l (Z.to_nat (Z.of_nat (length l) + i))) as [x Hx];
    [lia|].
  exists x. split; [done|]. unfold getitem. cbv zeta.
  destruct (decide (i < 0)); [|lia]. rewrite decide_True by lia.
  replace (i + Z.of_nat (length l)) with (Z.of_nat (length l) + i) by lia.
  by rewrite Hx.
Qed.

Lemma getitem_out_of_range {A} (l : list A) i :
  i < - Z.of_nat (length l) → getitem l i = Raises IndexError.
Proof.
  intros Hi. unfold getitem. cbv zeta.
  destruct (decide (i < 0)); [|lia]. by rewrite decide_False by lia.
Qed.

(** X9. [get_hint] by level, for a challenge with [n] hints: a level from 1
    to [n] returns the hint at that position; a level from [1 - n] to 0 wraps
    around and returns a hint counted from the end of the list; a level of
    [-n] or below raises [IndexError]; in all three cases, that is for every
    level up to [n], the challenge is left with [hints_used] one higher.  A
    level above [n] returns [None] and leaves the challenge as it was.  No
    call changes another attribute of the challenge. *)
Theorem get_hint_by_level (self : Challenge) (lvl : Z) :
  let hs := hints (info self) in
  let n := Z.of_nat (length hs) in
  let result := (get_hint self lvl).1 in
  let after := (get_hint self lvl).2 in
  (1 ≤ lvl ≤ n →
     ∃ h, hs !! Z.to_nat (lvl - 1) = Some h ∧ result = Returns (Some h)) ∧
  (1 - n ≤ lvl ≤ 0 →
     ∃ h, hs !! Z.to_nat (n + lvl - 1) = Some h ∧ result = Returns (Some h)) ∧
  (lvl ≤ - n → result = Raises IndexError) ∧
  (lvl ≤ n → hints_used after = hints_used self + 1) ∧
  (n < lvl → result = Returns None ∧ after = self) ∧
  info after = info self ∧ attempts after = attempts self ∧
  get_tools after = get_tools self ∧ get_resources after = get_resources self.
Proof.
  intros hs n result after. unfold result, after, get_hint. fold hs. fold n.
  split; [|split; [|split; [|split; [|split]]]].
  - intros Hl. rewrite decide_True by lia. simpl. fold hs.
    destruct (getitem_in_range hs (lvl - 1)) as (h & Hh & ->); [lia|]. by exists h.
  - intros Hl. rewrite decide_True by lia. simpl. fold hs.
    destruct (getitem_from_end hs (lvl - 1)) as (h & Hh & ->); [lia|].
    exists h. split; [|done]. rewrite <-Hh. f_equal. lia.
  - intros Hl. rewrite decide_True by lia. simpl. fold hs.
    by rewrite getitem_out_of_range by lia.
  - intros Hl. by rewrite decide_True by lia.
  - intros Hl. by rewrite decide_False by lia.
  - by destruct (decide (lvl ≤ n)).
Qed.

(** X10. [calculate_score] with nonnegative counters and base points: the
    score lies between a quarter of the base points (rounded down) and the
    base points, is never negative, equals the base points minus 5 per attempt
    and 10 per hint as long as that stays above the quarter, and does not
    increase when attempts or hints are added. *)
Theorem calculate_score_bounds (self other : Challenge) (base_points : Z) :
  0 ≤ attempts self → 0 ≤ hints_used self → 0 ≤ base_points →
  let penalty := attempts self * 5 + hints_used self * 10 in
  base_points `div` 4 ≤ calculate_score self base_points ≤ base_points ∧
  0 ≤ calculate_score self base_points ∧
  (base_points `div` 4 ≤ base_points - penalty →
     calculate_score self base_points = base_points - penalty) ∧
  (attempts self ≤ attempts other → hints_used self ≤ hints_used other →
     calculate_score other base_points ≤ calculate_score self base_points).
Proof.
  intros Ha Hh Hb penalty. unfold calculate_score. fold penalty.
  assert (0 ≤ base_points `div` 4 ≤ base_points) as Hq.
  { split; [apply Z.div_pos; lia | apply Z.div_le_upper_bound; lia]. }
  repeat split; lia.
Qed.

Lemma calculate_score_bounds_witness :
  let self := {| info := {| id := 1; title := "t"; points := 100; hints := three_hints |};
                 attempts := 3; hints_used := 1;
                 get_tools := []; get_resources := [] |} in
  let other := Base.with_hints_used 9 self in
  0 ≤ attempts self ∧ 0 ≤ hints_used self ∧ 0 ≤ 100 ∧
  let penalty := attempts self * 5 + hints_used self * 10 in
  100 `div` 4 ≤ calculate_score self 100 ≤ 100 ∧
  0 ≤ calculate_score self 100 ∧
  (100 `div` 4 ≤ 100 - penalty → calculate_score self 100 = 100 - penalty) ∧
  (attempts self ≤ attempts other → hints_used self ≤ hints_used other →
     calculate_score other 100 ≤ calculate_score self 100).
Proof.
  intros self other.
  split; [simpl; lia|]. split; [simpl; lia|]. split; [lia|].
  apply (calculate_score_bounds self other 100); simpl; lia.
Defined.

End BaseFacts.

(** ** The server: tools *)

Module ToolFacts.

Import Base Server Dispatch.

(** *** The challenge table *)

Lemma dict_get_elem {A} (d : list (Z * A)) k v :
  dict_get d k = Some v → (k, v) ∈ d.
Proof.
  induction d as [|[k' v'] d IH]; simpl; [done|].
  case_decide as Hk; [intros [= ->]; subst; by left|].
  intros Hd. right. by apply IH.
Qed.

Lemma dict_get_is_Some {A} (d : list (Z * A)) k v :
  (k, v) ∈ d → is_Some (dict_get d k).
Proof.
  induction d as [|[k' v'] d IH]; [by intros ?%elem_of_nil|].
  simpl. case_decide as Hk; [by eexists|].
  intros [[= -> ->]|Hin]%elem_of_cons; [done|]. by apply IH.
Qed.

Lemma dict_get_NoDup {A} (d : list (Z * A)) k v :
  NoDup d.*1 → (k, v) ∈ d → dict_get d k = Some v.
Proof.
  induction d as [|[k' v'] d IH]; [by intros _ ?%elem_of_nil|].
  rewrite fmap_cons. intros [Hk' Hd]%NoDup_cons. simpl.
  intros [[= -> ->]|Hin]%elem_of_cons.
  - by rewrite decide_True.
  - case_decide as Hk; [|by apply IH].
    subst k'. exfalso. apply Hk'. apply list_elem_of_fmap. by exists (k, v).
Qed.

(** *** What the two tables hold *)

Lemma declares_tool_pairs chs cid bare :
  declares_tool chs cid bare ↔ (cid, bare) ∈ declared_pairs (per_challenge_tools chs).
Proof. unfold declares_tool. by rewrite RegistryProps.elem_of_declared_pairs. Qed.

Lemma reg_tools_source (l : list (Z * string)) (m : gmap string (Z * string)) k v :
  foldl (λ m pr, <[ns_name pr.1 pr.2 := pr]> m) m l !! k = Some v →
  (v ∈ l ∧ k = ns_name v.1 v.2) ∨ m !! k = Some v.
Proof.
  revert m. induction l as [|pr l IH]; intros m; simpl; [by right|].
  intros [[Hin Hk]|Hm]%IH.
  - left. split; [by right | done].
  - rewrite lookup_insert in Hm. case_decide as Hk.
    + injection Hm as <-. left. split; [by left | done].
    + by right.
Qed.

Lemma reg_tools_None (l : list (Z * string)) (m : gmap string (Z * string)) k :
  foldl (λ m pr, <[ns_name pr.1 pr.2 := pr]> m) m l !! k = None ↔
  m !! k = None ∧ ∀ pr, pr ∈ l → ns_name pr.1 pr.2 ≠ k.
Proof.
  revert m. induction l as [|pr l IH]; intros m; simpl.
  - split; [intros ?; split; [done|by intros ? ?%elem_of_nil] | by intros [? _]].
  - rewrite IH, lookup_insert_None. split.
    + intros [[Hm Hk] Hl]. split; [done|].
      intros pr' [->|Hin]%elem_of_cons; [done | by apply Hl].
    + intros [Hm Hl]. split; [split; [done|]|].
      * apply Hl. by left.
      * intros pr' Hin. apply Hl. by right.
Qed.

Lemma tool_registry_entry chs k v :
  reg_tools (_build_tool_registry chs) !! k = Some v →
  declares_tool chs v.1 v.2 ∧ k = ns_name v.1 v.2.
Proof.
  unfold _build_tool_registry. rewrite RegistryProps.reg_tools_expose_all.
  intros [[Hin Hk]|Hm]%reg_tools_source.
  - split; [|done]. apply declares_tool_pairs. by destruct v.
  - simpl in Hm. by rewrite lookup_empty in Hm.
Qed.

Lemma tool_registry_None chs k :
  reg_tools (_build_tool_registry chs) !! k = None ↔ ¬ namespaced_in chs k.
Proof.
  unfold _build_tool_registry. rewrite RegistryProps.reg_tools_expose_all.
  rewrite reg_tools_None. simpl. rewrite lookup_empty. split.
  - intros [_ Hl] (cid & bare & Hd & ->).
    apply declares_tool_pairs in Hd. by apply (Hl (cid, bare)).
  - intros Hno. split; [done|]. intros [cid bare] Hin Hk. apply Hno.
    exists cid, bare. split; [by apply declares_tool_pairs | done].
Qed.

Lemma unique_registry_entry chs n v :
  reg_unique (_build_tool_registry chs) !! n = Some v →
  declares_tool chs v.1 n ∧ v.2 = n ∧ occurrences n chs = 1%nat.
Proof.
  rewrite RegistryProps.alias_lookup. case_decide as Hocc; [|done].
  intros Hlast. apply last_Some in Hlast as [l' Hl'].
  assert (v ∈ filter (λ pr, pr.2 = n) (declared_pairs (per_challenge_tools chs)))
    as Hin by (rewrite Hl'; apply elem_of_app; right; by left).
  apply list_elem_of_filter in Hin as [Hn Hin]. destruct v as [cid m].
  simpl in *. subst m. split; [by apply declares_tool_pairs | done].
Qed.

Lemma unique_registry_None chs n :
  reg_unique (_build_tool_registry chs) !! n = None ↔ occurrences n chs ≠ 1%nat.
Proof.
  rewrite RegistryProps.alias_lookup. case_decide as Hocc; [|done].
  split; [|done]. intros Hlast. exfalso.
  unfold occurrences in Hocc.
  rewrite <-RegistryProps.declared_pairs_names, <-RegistryProps.filter_snd_length in Hocc.
  destruct (filter _ _) as [|pr [|??]]; simplify_eq/=.
Qed.

(** *** Routing of a tool name *)

Lemma ns_name_not_builtin cid bare :
  ns_name cid bare ≠ "vulnmcp_help" ∧ ns_name cid bare ≠ "vulnmcp_hint".
Proof. unfold ns_name. simpl. split; intros [=]. Qed.

Lemma forward_declared chs self e bare :
  challenges self = chs → declares_tool chs e.1 bare →
  ∃ ch, (e.1, ch) ∈ chs ∧ forward_tool self e = Returns (ForwardTool e.1 ch e.2).
Proof.
  intros Hchs (ch0 & Hch0 & _). unfold forward_tool. rewrite Hchs.
  destruct (dict_get_is_Some _ _ _ Hch0) as [ch Hch]. rewrite Hch.
  exists ch. split; [by apply dict_get_elem | done].
Qed.

Section Routing.

Variable urlparse : string → outcome (string * string).

(** X11. On a constructed server with distinct unit ids, every declared
    tool is reachable under its namespaced name, whatever other challenges
    declare: [call_tool] hands [lvl<cid>__<name>] to challenge [cid] with the
    bare name, and answers with what the challenge's handler returns, or with
    the error text when the handler raises. *)
Theorem namespaced_name_reaches_its_tool chs self cid ch t :
  __init__ urlparse chs = Returns self →
  NoDup chs.*1 →
  (cid, ch) ∈ chs →
  t ∈ get_tools ch →
  route_tool self (ns_name cid (name t)) = Returns (ForwardTool cid ch (name t)) ∧
  ∀ run_help run_hint handle,
    call_tool run_help run_hint handle self (ns_name cid (name t)) =
    match handle cid ch (name t) with
    | Returns texts => texts
    | Raises e => ["❌ Error executing tool: " +:+ exn_str e]
    end.
Proof.
  intros Hinit Hids Hch Ht.
  apply ResourceProps.init_returns in Hinit as (Hchs & Hreg & _ & _).
  assert (route_tool self (ns_name cid (name t))
          = Returns (ForwardTool cid ch (name t))) as Hroute.
  { unfold route_tool.
    destruct (ns_name_not_builtin cid (name t)) as [H1 H2].
    rewrite !decide_False by done. rewrite Hreg.
    unfold _build_tool_registry. rewrite RegistryProps.reg_tools_expose_all.
    rewrite RegistryProps.reg_tools_lookup.
    - unfold forward_tool. simpl. rewrite Hchs.
      by rewrite (dict_get_NoDup _ _ _ Hids Hch).
    - left. apply RegistryProps.elem_of_declared_pairs. exists ch. split; [done|].
      apply list_elem_of_fmap. eauto. }
  split; [done|]. intros run_help run_hint handle. unfold call_tool.
  by rewrite Hroute.
Qed.

Lemma route_tool_built chs self n :
  __init__ urlparse chs = Returns self →
  n ≠ "vulnmcp_help" → n ≠ "vulnmcp_hint" →
  (∃ v ch, reg_tools (_build_tool_registry chs) !! n = Some v ∧
           (v.1, ch) ∈ chs ∧ declares_tool chs v.1 v.2 ∧ n = ns_name v.1 v.2 ∧
           route_tool self n = Returns (ForwardTool v.1 ch v.2)) ∨
  (¬ namespaced_in chs n ∧
   ∃ v ch, reg_unique (_build_tool_registry chs) !! n = Some v ∧
           (v.1, ch) ∈ chs ∧ declares_tool chs v.1 n ∧ v.2 = n ∧
           occurrences n chs = 1%nat ∧
           route_tool self n = Returns (ForwardTool v.1 ch v.2)) ∨
  (¬ namespaced_in chs n ∧ occurrences n chs ≠ 1%nat ∧
   route_tool self n = Returns UnknownTool).
Proof.
  intros Hinit H1 H2.
  apply ResourceProps.init_returns in Hinit as (Hchs & Hreg & Huniq & _).
  unfold route_tool. rewrite !decide_False by done. rewrite Hreg, Huniq.
  destruct (reg_tools (_build_tool_registry chs) !! n) as [v|] eqn:Hv.
  - left. pose proof (tool_registry_entry _ _ _ Hv) as [Hd Hk].
    destruct (forward_declared chs self v v.2 Hchs Hd) as (ch & Hch & Hf).
    exists v, ch. by repeat split.
  - right. apply tool_registry_None in Hv.
    destruct (reg_unique (_build_tool_registry chs) !! n) as [v|] eqn:Hu.
    + left. split; [done|].
      pose proof (unique_registry_entry _ _ _ Hu) as (Hd & Hn & Hocc).
      destruct (forward_declared chs self v n Hchs Hd) as (ch & Hch & Hf).
      exists v, ch. by repeat split.
    + right. apply unique_registry_None in Hu. by repeat split.
Qed.

(** X12. On a constructed server, [call_tool] reports a name as unknown
    exactly when it is neither of the two server tools, nor the namespaced
    name of a declared tool, nor a bare name declared exactly once; every
    other name is handed to a registered challenge, and the lookup never
    fails with [KeyError]. *)
Theorem unknown_tool_iff chs self n :
  __init__ urlparse chs = Returns self →
  (route_tool self n = Returns UnknownTool ↔
     n ≠ "vulnmcp_help" ∧ n ≠ "vulnmcp_hint" ∧
     ¬ namespaced_in chs n ∧ occurrences n chs ≠ 1%nat) ∧
  (route_tool self n = Returns UnknownTool →
     ∀ run_help run_hint handle,
       call_tool run_help run_hint handle self n = ["❌ Unknown tool: " +:+ n]) ∧
  (∀ e, route_tool self n ≠ Raises e).
Proof.
  intros Hinit.
  assert (n = "vulnmcp_help" ∨ n = "vulnmcp_hint" ∨
          (n ≠ "vulnmcp_help" ∧ n ≠ "vulnmcp_hint")) as [->|[->|[H1 H2]]].
  { destruct (decide (n = "vulnmcp_help")); [by left|].
    destruct (decide (n = "vulnmcp_hint")); [by right; left|]. by right; right. }
  - split; [|split]; [split; [done|by intros [? _]] | done | done].
  - split; [|split]; [split; [done|by intros (_ & ? & _)] | done | done].
  - split; [|split].
    + destruct (route_tool_built chs self n Hinit H1 H2)
        as [(v & ch & Hv & _ & Hd & Hk & ->)
           |[(Hns & v & ch & _ & _ & _ & _ & Hocc & ->)|(Hns & Hocc & ->)]].
      * split; [done|]. intros (_ & _ & Hns & _). exfalso. apply Hns.
        exists v.1, v.2. done.
      * split; [done|]. intros (_ & _ & _ & Hne). done.
      * done.
    + intros Hroute run_help run_hint handle. unfold call_tool. by rewrite Hroute.
    + intros e.
      by destruct (route_tool_built chs self n Hinit H1 H2)
        as [(v & ch & _ & _ & _ & _ & ->)
           |[(_ & v & ch & _ & _ & _ & _ & _ & ->)|(_ & _ & ->)]].
Qed.

(** X13. On a constructed server with distinct unit ids, a bare name that
    is declared exactly once, is not one of the two server tools and does not
    coincide with the namespaced name of a declared tool is handed by
    [call_tool] to the challenge that declares it, under that name. *)
Theorem alias_reaches_its_tool chs self cid ch n :
  __init__ urlparse chs = Returns self →
  NoDup chs.*1 →
  (cid, ch) ∈ chs → n ∈ name <$> get_tools ch →
  occurrences n chs = 1%nat →
  n ≠ "vulnmcp_help" → n ≠ "vulnmcp_hint" → ¬ namespaced_in chs n →
  route_tool self n = Returns (ForwardTool cid ch n).
Proof.
  intros Hinit Hids Hch Hn Hocc H1 H2 Hns.
  destruct (route_tool_built chs self n Hinit H1 H2)
    as [(v & ch' & _ & _ & Hd & Hk & _)
       |[(_ & v & ch' & Hv & Hch' & Hd & Hv2 & _ & ->)|(_ & Hne & _)]].
  - exfalso. apply Hns. by exists v.1, v.2.
  - assert ((cid, n) ∈ filter (λ pr, pr.2 = n)
                        (declared_pairs (per_challenge_tools chs))) as Hin.
    { apply list_elem_of_filter. split; [done|].
      apply RegistryProps.elem_of_declared_pairs. eauto. }
    assert ((v.1, n) ∈ filter (λ pr, pr.2 = n)
                        (declared_pairs (per_challenge_tools chs))) as Hin'.
    { apply list_elem_of_filter. split; [done|]. by apply declares_tool_pairs. }
    unfold occurrences in Hocc.
    rewrite <-RegistryProps.declared_pairs_names, <-RegistryProps.filter_snd_length
      in Hocc.
    destruct (filter _ _) as [|pr [|??]]; [done| |done].
    apply list_elem_of_singleton in Hin as <-.
    apply list_elem_of_singleton in Hin' as [= Hv1].
    rewrite Hv1, Hv2 in *.
    pose proof (dict_get_NoDup _ _ _ Hids Hch) as Hg1.
    pose proof (dict_get_NoDup _ _ _ Hids Hch') as Hg2.
    by simplify_eq.
  - done.
Qed.

(** *** [list_tools] *)







End Routing.


(** The advertised names for two challenges that share "check". *)
Example list_tools_check_twice :
  (λ o, match o with Returns ts => name <$> ts | Raises _ => [] end)
    (match __init__ urlparse_model check_twice with
     | Returns self => list_tools self
     | Raises e => Raises e
     end)
  = ["vulnmcp_help"; "vulnmcp_hint"; "lvl1__check"; "lvl1__submit_a";
     "lvl2__check"; "submit_a"].
Proof. by vm_compute. Qed.

Lemma namespaced_name_reaches_its_tool_witness :
  let ch := challenge_with [] ["check"] [] in
  let t := {| name := "check"; description := EmptyString; inputSchema := "{}" |} in
  ∃ self, __init__ urlparse_model check_twice = Returns self ∧
  NoDup check_twice.*1 ∧ (2, ch) ∈ check_twice ∧ t ∈ get_tools ch ∧
  route_tool self (ns_name 2 (name t)) = Returns (ForwardTool 2 ch (name t)) ∧
  ∀ run_help run_hint handle,
    call_tool run_help run_hint handle self (ns_name 2 (name t)) =
    match handle 2 ch (name t) with
    | Returns texts => texts
    | Raises e => ["❌ Error executing tool: " +:+ exn_str e]
    end.
Proof.
  intros ch t. eexists. split; [reflexivity|].
  assert (NoDup check_twice.*1) as Hids by (apply (bool_decide_unpack _); by vm_compute).
  assert ((2, ch) ∈ check_twice) as Hch by (right; by left).
  assert (t ∈ get_tools ch) as Ht by (by left).
  split; [exact Hids|]. split; [exact Hch|]. split; [exact Ht|].
  apply (namespaced_name_reaches_its_tool urlparse_model check_twice _ 2 ch t);
    [reflexivity | exact Hids | exact Hch | exact Ht].
Defined.

Lemma unknown_tool_iff_witness :
  ∃ self, __init__ urlparse_model check_twice = Returns self ∧
  (route_tool self "check" = Returns UnknownTool ↔
     "check" ≠ "vulnmcp_help" ∧ "check" ≠ "vulnmcp_hint" ∧
     ¬ namespaced_in check_twice "check" ∧ occurrences "check" check_twice ≠ 1%nat) ∧
  (route_tool self "check" = Returns UnknownTool →
     ∀ run_help run_hint handle,
       call_tool run_help run_hint handle self "check" = ["❌ Unknown tool: check"]) ∧
  (∀ e, route_tool self "check" ≠ Raises e).
Proof.
  eexists. split; [reflexivity|].
  apply (unknown_tool_iff urlparse_model check_twice _ "check"). reflexivity.
Defined.

Lemma alias_reaches_its_tool_witness :
  let ch := challenge_with [] ["check"; "submit_a"] [] in
  ∃ self, __init__ urlparse_model check_twice = Returns self ∧
  NoDup check_twice.*1 ∧ (1, ch) ∈ check_twice ∧
  "submit_a" ∈ name <$> get_tools ch ∧
  occurrences "submit_a" check_twice = 1%nat ∧
  "submit_a" ≠ "vulnmcp_help" ∧ "submit_a" ≠ "vulnmcp_hint" ∧
  ¬ namespaced_in check_twice "submit_a" ∧
  route_tool self "submit_a" = Returns (ForwardTool 1 ch "submit_a").
Proof.
  intros ch. eexists. split; [reflexivity|].
  assert (NoDup check_twice.*1) as Hids by (apply (bool_decide_unpack _); by vm_compute).
  assert ((1, ch) ∈ check_twice) as Hch by (by left).
  assert ("submit_a" ∈ name <$> get_tools ch) as Hn by (right; by left).
  assert (occurrences "submit_a" check_twice = 1%nat) as Hocc by reflexivity.
  assert (¬ namespaced_in check_twice "submit_a") as Hns.
  { intros (cid & bare & _ & Heq). unfold ns_name in Heq. simpl in Heq. done. }
  split; [exact Hids|]. split; [exact Hch|]. split; [exact Hn|].
  split; [exact Hocc|]. split; [done|]. split; [done|]. split; [exact Hns|].
  apply (alias_reaches_its_tool urlparse_model check_twice _ 1 ch "submit_a");
    [reflexivity | exact Hids | exact Hch | exact Hn | exact Hocc | done | done
    | exact Hns].
Defined.

End ToolFacts.

(** ** The server: resources *)

Module ResourceFacts.

Import Base Server Dispatch.

Section Routing.

Variable urlparse : string → outcome (string * string).

Lemma declared_resources_elem chs cid r :
  (cid, r) ∈ declared_resources chs ↔ ∃ ch, (cid, ch) ∈ chs ∧ r ∈ get_resources ch.
Proof.
  unfold declared_resources. rewrite list_elem_of_bind. split.
  - intros ([c ch] & Hin & Hch). simpl in Hin.
    apply list_elem_of_fmap in Hin as (r' & [= -> ->] & Hr). by exists ch.
  - intros (ch & Hch & Hr). exists (cid, ch). split; [|done].
    simpl. apply list_elem_of_fmap. by exists r.
Qed.

Lemma claimants_elem chs cid K :
  cid ∈ claimants urlparse (declared_resources chs) K ↔
  declares_under urlparse chs cid K.
Proof.
  split; [|apply ResourceProps.elem_of_claimants].
  unfold claimants. intros ([c r] & Hin & Hc)%list_elem_of_omap.
  simpl in Hc. destruct (urlparse (uri r)) as [k|] eqn:Hparse; [|done].
  case_decide as Hk; [|done]. injection Hc as ->. subst k.
  apply declared_resources_elem in Hin as (ch & Hch & Hr).
  by exists ch, r.
Qed.

Lemma claim_all_same cs c :
  cs ≠ [] → Forall (λ x, x = c) cs → foldl claim None cs = Some (Some c).
Proof.
  destruct cs as [|x cs]; [done|]. intros _ [-> Hall]%Forall_cons. simpl.
  induction Hall as [|y cs -> _ IH]; [done|].
  simpl. by rewrite decide_False by (by intros ?).
Qed.




(** X16. An address that no challenge declares, under a key other than
    [("vulnmcp", "docs")].  The address [vulnmcp://welcome] is answered with
    the welcome text, whatever is declared under its key.  Any other such
    address: when exactly one unit declares resources under the key,
    [read_resource] hands the address to that unit; when no unit does, it
    answers that the resource was not found. *)
Theorem undeclared_address_goes_to_the_owner chs self a K :
  __init__ urlparse chs = Returns self →
  Forall (λ c, ¬ declares a c) chs →
  urlparse a = Returns K →
  K ≠ ("vulnmcp", "docs") →
  (a = "vulnmcp://welcome" →
   route_resource urlparse self a = Returns Welcome ∧
   ∀ handle, read_resource urlparse handle self a = _get_welcome_text) ∧
  (a ≠ "vulnmcp://welcome" →
   ∀ cid, declares_under urlparse chs cid K →
          (∀ c, declares_under urlparse chs c K → c = cid) →
          ∃ ch, (cid, ch) ∈ chs ∧
                route_resource urlparse self a = Returns (Delegate cid ch) ∧
                ∀ handle, read_resource urlparse handle self a =
                  match handle cid ch a with
                  | Returns content => content
                  | Raises e => "❌ Error reading resource: " +:+ exn_str e
                  end) ∧
  (a ≠ "vulnmcp://welcome" →
   (∀ cid, ¬ declares_under urlparse chs cid K) →
   route_resource urlparse self a = Returns NotFound ∧
   ∀ handle, read_resource urlparse handle self a = "❌ Resource not found: " +:+ a).
Proof.
  intros Hinit Hnone Hparse HK.
  pose proof (ResourceProps.owner_lookup urlparse chs self K Hinit) as Howner.
  rewrite decide_False in Howner by done.
  pose proof Hinit as (Hchs & _)%ResourceProps.init_returns.
  assert (list_find (declares a) (challenges self) = None) as Hfind
    by (rewrite Hchs; by apply list_find_None).
  split; [|split].
  - intros ->.
    assert (route_resource urlparse self "vulnmcp://welcome" = Returns Welcome)
      as Hroute by (unfold route_resource; by rewrite decide_True).
    split; [done|]. intros handle. unfold read_resource. by rewrite Hroute.
  - intros Ha cid Hd Honly.
    assert (_resource_owner self !! K = Some (Some cid)) as Hk.
    { rewrite Howner. apply claim_all_same.
      - apply claimants_elem in Hd. by intros Heq; rewrite Heq in Hd; apply elem_of_nil in Hd.
      - apply Forall_forall. intros c Hc. apply Honly. by apply claimants_elem. }
    destruct Hd as (ch0 & r & Hch0 & _).
    destruct (ToolFacts.dict_get_is_Some _ _ _ Hch0) as [ch Hch].
    exists ch. split; [by apply ToolFacts.dict_get_elem|].
    assert (route_resource urlparse self a = Returns (Delegate cid ch)) as Hroute.
    { unfold route_resource. rewrite decide_False by done.
      rewrite Hfind, Hparse, Hk. simpl. by rewrite Hchs, Hch. }
    split; [done|]. intros handle. unfold read_resource. by rewrite Hroute.
  - intros Ha Hno.
    assert (_resource_owner self !! K = None) as Hk.
    { rewrite Howner.
      destruct (claimants urlparse (declared_resources chs) K) as [|c cs] eqn:Hcs;
        [done|].
      exfalso. apply (Hno c). apply claimants_elem. rewrite Hcs. by left. }
    assert (route_resource urlparse self a = Returns NotFound) as Hroute.
    { apply (ResourceProps.route_not_found urlparse self a K);
        [done | by rewrite Hchs | done | by rewrite Hk]. }
    split; [done|]. intros handle. unfold read_resource. by rewrite Hroute.
Qed.

(** X17. An address under [("vulnmcp", "docs")] that no challenge declares
    is handed to unit 2, whoever declares resources under that key; when no
    unit 2 is registered, [read_resource] answers with the error text for the
    failed lookup of the key 2. *)
Theorem docs_addresses_go_to_unit_two chs self a :
  __init__ urlparse chs = Returns self →
  a ≠ "vulnmcp://welcome" →
  Forall (λ c, ¬ declares a c) chs →
  urlparse a = Returns ("vulnmcp", "docs") →
  match dict_get chs 2 with
  | Some ch => route_resource urlparse self a = Returns (Delegate 2 ch)
  | None =>
      route_resource urlparse self a = Raises (KeyError 2) ∧
      ∀ handle, read_resource urlparse handle self a = "❌ Error reading resource: 2"
  end.
Proof.
  intros Hinit Ha Hnone Hparse.
  pose proof (ResourceProps.owner_lookup urlparse chs self ("vulnmcp", "docs") Hinit)
    as Howner.
  rewrite decide_True in Howner by done.
  pose proof Hinit as (Hchs & _)%ResourceProps.init_returns.
  assert (list_find (declares a) (challenges self) = None) as Hfind
    by (rewrite Hchs; by apply list_find_None).
  assert (route_resource urlparse self a =
          match dict_get chs 2 with
          | Some ch => Returns (Delegate 2 ch)
          | None => Raises (KeyError 2)
          end) as Hroute.
  { unfold route_resource. rewrite decide_False by done.
    rewrite Hfind, Hparse, Howner. simpl. by rewrite Hchs. }
  destruct (dict_get chs 2) as [ch|]; [done|].
  split; [done|]. intros handle. unfold read_resource. by rewrite Hroute.
Qed.

End Routing.

Lemma undeclared_address_goes_to_the_owner_witness :
  let a := "notes://pad/9" in
  let K := ("notes", "pad") in
  ∃ self, __init__ urlparse_model separate_keys = Returns self ∧
  Forall (λ c, ¬ declares a c) separate_keys ∧
  urlparse_model a = Returns K ∧
  K ≠ ("vulnmcp", "docs") ∧
  a ≠ "vulnmcp://welcome" ∧
  declares_under urlparse_model separate_keys 6 K ∧
  (a = "vulnmcp://welcome" →
   route_resource urlparse_model self a = Returns Welcome ∧
   ∀ handle, read_resource urlparse_model handle self a = _get_welcome_text) ∧
  (a ≠ "vulnmcp://welcome" →
   ∀ cid, declares_under urlparse_model separate_keys cid K →
          (∀ c, declares_under urlparse_model separate_keys c K → c = cid) →
          ∃ ch, (cid, ch) ∈ separate_keys ∧
                route_resource urlparse_model self a = Returns (Delegate cid ch) ∧
                ∀ handle, read_resource urlparse_model handle self a =
                  match handle cid ch a with
                  | Returns content => content
                  | Raises e => "❌ Error reading resource: " +:+ exn_str e
                  end) ∧
  (a ≠ "vulnmcp://welcome" →
   (∀ cid, ¬ declares_under urlparse_model separate_keys cid K) →
   route_resource urlparse_model self a = Returns NotFound ∧
   ∀ handle, read_resource urlparse_model handle self a
             = "❌ Resource not found: " +:+ a).
Proof.
  intros a K. eexists. split; [reflexivity|].
  assert (Forall (λ c, ¬ declares a c) separate_keys) as Hnone.
  { repeat constructor; intros Hd; unfold declares in Hd; simpl in Hd;
      repeat (apply elem_of_cons in Hd as [Hd|Hd]; [done|]);
      by apply elem_of_nil in Hd. }
  assert (declares_under urlparse_model separate_keys 6 K) as Hd.
  { eexists _, _. split; [right; by left|]. split; [by left|]. reflexivity. }
  split; [exact Hnone|]. split; [reflexivity|]. split; [done|]. split; [done|].
  split; [exact Hd|].
  apply (undeclared_address_goes_to_the_owner urlparse_model separate_keys _ a K);
    [reflexivity | exact Hnone | reflexivity | done].
Defined.

(** The welcome address is answered with the welcome text also by a server
    on which a unit declares resources under its key. *)
Example welcome_address_is_not_delegated :
  let chs := [(5, challenge_with [] [] ["vulnmcp://welcome/extra"])] in
  urlparse_model "vulnmcp://welcome" = Returns ("vulnmcp", "welcome") ∧
  declares_under urlparse_model chs 5 ("vulnmcp", "welcome") ∧
  match __init__ urlparse_model chs with
  | Returns self =>
      read_resource urlparse_model (λ _ _ _, Returns "content") self
        "vulnmcp://welcome"
  | Raises _ => EmptyString
  end = _get_welcome_text.
Proof.
  intros chs. split; [reflexivity|]. split; [|by vm_compute].
  eexists _, _. split; [by left|]. split; [by left|]. reflexivity.
Qed.

Lemma docs_addresses_go_to_unit_two_witness :
  let a := "vulnmcp://docs/other" in
  ∃ self, __init__ urlparse_model shared_docs = Returns self ∧
  a ≠ "vulnmcp://welcome" ∧
  Forall (λ c, ¬ declares a c) shared_docs ∧
  urlparse_model a = Returns ("vulnmcp", "docs") ∧
  match dict_get shared_docs 2 with
  | Some ch => route_resource urlparse_model self a = Returns (Delegate 2 ch)
  | None =>
      route_resource urlparse_model self a = Raises (KeyError 2) ∧
      ∀ handle, read_resource urlparse_model handle self a
                = "❌ Error reading resource: 2"
  end.
Proof.
  intros a. eexists. split; [reflexivity|].
  assert (Forall (λ c, ¬ declares a c) shared_docs) as Hnone.
  { repeat constructor; intros Hd; unfold declares in Hd; simpl in Hd;
      repeat (apply elem_of_cons in Hd as [Hd|Hd]; [done|]);
      by apply elem_of_nil in Hd. }
  split; [done|]. split; [exact Hnone|]. split; [reflexivity|].
  apply (docs_addresses_go_to_unit_two urlparse_model shared_docs _ a);
    [reflexivity | done | exact Hnone | reflexivity].
Defined.

(** Without a unit 2, an undeclared address under [vulnmcp://docs] ends in
    the error text. *)
Example docs_address_without_unit_two :
  match __init__ urlparse_model separate_keys with
  | Returns self =>
      read_resource urlparse_model (λ _ _ _, Returns "content") self
        "vulnmcp://docs/anything"
  | Raises _ => EmptyString
  end = "❌ Error reading resource: 2".
Proof. by vm_compute. Qed.

End ResourceFacts.

(** ** The server: hints *)

Module HintFacts.

Import Base Server Dispatch.

Lemma dict_get_set_eq {A} (d : list (Z * A)) k v :
  dict_get (dict_set d k v) k = Some v.
Proof.
  induction d as [|[k' v'] d IH]; simpl; [by rewrite decide_True|].
  case_decide as Hk; simpl; [by rewrite decide_True|]. by rewrite decide_False.
Qed.

Lemma dict_get_set_ne {A} (d : list (Z * A)) k k' v :
  k' ≠ k → dict_get (dict_set d k v) k' = dict_get d k'.
Proof.
  intros Hne. induction d as [|[k0 v0] d IH]; simpl; [by rewrite decide_False|].
  case_decide as Hk; simpl.
  - subst k0. by rewrite !decide_False by done.
  - case_decide; [done | exact IH].
Qed.

Lemma use_hint_entry recursion_limit cid lvl w :
  Scoring.files w !! "player" ≠ Some Scoring.Corrupt →
  (∀ p, Progress.stored w "player" = Some p → Scoring.username p = "player") →
  ∃ text w', Scoring.use_hint recursion_limit "player" cid lvl w = (Returns text, w') ∧
    (∀ cp, Progress.entry w "player" cid = Some cp →
       ∃ cp', Progress.entry w' "player" cid = Some cp' ∧
         Scoring.hints_used cp' = Scoring.hints_used cp + 1 ∧
         Scoring.challenge_id cp' = Scoring.challenge_id cp ∧
         Scoring.completed cp' = Scoring.completed cp ∧
         Scoring.score cp' = Scoring.score cp ∧
         Scoring.attempts cp' = Scoring.attempts cp ∧
         Scoring.time_started cp' = Scoring.time_started cp ∧
         Scoring.time_completed cp' = Scoring.time_completed cp ∧
         Scoring.best_score cp' = Scoring.best_score cp) ∧
    (Progress.entry w "player" cid = None → Progress.entry w' "player" cid = None).
Proof.
  intros Hnc Hu. unfold Scoring.use_hint, Scoring.bind, Progress.entry, Progress.stored in *.
  destruct (Scoring.files w !! "player") as [[|p]|] eqn:Hf; [done| |].
  - rewrite (ScoringProps.load_progress_stored _ _ _ _ Hf).
    specialize (Hu p eq_refl).
    simpl.
    destruct (Scoring.challenge_progress p !! cid) as [cp|] eqn:Hcp; simpl;
      eexists _, _; (split; [reflexivity|]); simpl;
      rewrite Hu, lookup_insert_eq; simpl; rewrite ?lookup_insert_eq, ?Hcp.
    + split; [|done]. intros ? [= <-]. by eexists.
    + split; [done|done].
  - rewrite (ScoringProps.load_progress_missing _ _ _ Hf). simpl.
    rewrite lookup_empty. eexists _, _. split; [reflexivity|]. simpl.
    rewrite lookup_insert_eq. simpl. rewrite lookup_empty. split; done.
Qed.

(** X18. A hint request for a registered challenge at a level from 1 to the
    number of its hints, when the player's progress file is not corrupt:
    [_get_hint] returns the text of that hint; the challenge is left with
    [hints_used] one higher and nothing else changed, and every other
    challenge as it was; when the player's progress has an entry for the
    unit, the entry is left with [hints_used] one higher and nothing else
    changed, and when it has none, it still has none. *)
Theorem hint_request_is_counted recursion_limit self cid ch lvl w :
  dict_get (challenges self) cid = Some ch →
  1 ≤ lvl ≤ Z.of_nat (length (hints (info ch))) →
  Scoring.files w !! "player" ≠ Some Scoring.Corrupt →
  (∀ p, Progress.stored w "player" = Some p → Scoring.username p = "player") →
  ∃ h self' w',
    hints (info ch) !! Z.to_nat (lvl - 1) = Some h ∧
    _get_hint recursion_limit self cid lvl w =
      (Returns ("💡 HINT L" +:+ str cid +:+ "." +:+ str lvl +:+ newline +:+ newline
                +:+ text h), self', w') ∧
    (∃ ch', dict_get (challenges self') cid = Some ch' ∧
       hints_used ch' = hints_used ch + 1 ∧
       info ch' = info ch ∧ attempts ch' = attempts ch ∧
       get_tools ch' = get_tools ch ∧ get_resources ch' = get_resources ch) ∧
    (∀ c, c ≠ cid → dict_get (challenges self') c = dict_get (challenges self) c) ∧
    (∀ cp, Progress.entry w "player" cid = Some cp →
       ∃ cp', Progress.entry w' "player" cid = Some cp' ∧
         Scoring.hints_used cp' = Scoring.hints_used cp + 1 ∧
         Scoring.challenge_id cp' = Scoring.challenge_id cp ∧
         Scoring.completed cp' = Scoring.completed cp ∧
         Scoring.score cp' = Scoring.score cp ∧
         Scoring.attempts cp' = Scoring.attempts cp ∧
         Scoring.time_started cp' = Scoring.time_started cp ∧
         Scoring.time_completed cp' = Scoring.time_completed cp ∧
         Scoring.best_score cp' = Scoring.best_score cp) ∧
    (Progress.entry w "player" cid = None → Progress.entry w' "player" cid = None).
Proof.
  intros Hch Hlvl Hnc Hu.
  destruct (BaseFacts.getitem_in_range (hints (info ch)) (lvl - 1)) as (h & Hh & Hget);
    [lia|].
  destruct (use_hint_entry recursion_limit cid lvl w Hnc Hu)
    as (txt & w' & Hrun & Hsome & Hnone).
  exists h. eexists _, w'. split; [done|].
  unfold _get_hint. rewrite Hch. unfold get_hint.
  rewrite decide_True by lia. simpl. rewrite Hget, Hrun.
  split; [reflexivity|]. simpl.
  split; [eexists; split; [apply dict_get_set_eq | done]|].
  split; [|done].
  intros c Hc. by apply dict_get_set_ne.
Qed.

Lemma hint_request_is_counted_witness :
  let ch := challenge_with three_hints [] [] in
  let w := Progress.started_world in
  ∃ self, __init__ urlparse_model [(3, ch)] = Returns self ∧
  1 ≤ 2 ≤ Z.of_nat (length (hints (info ch))) ∧
  Scoring.files w !! "player" ≠ Some Scoring.Corrupt ∧
  (∀ p, Progress.stored w "player" = Some p → Scoring.username p = "player") ∧
  is_Some (Progress.entry w "player" 3) ∧
  ∃ h self' w',
    hints (info ch) !! Z.to_nat (2 - 1) = Some h ∧
    _get_hint 1000 self 3 2 w =
      (Returns ("💡 HINT L" +:+ str 3 +:+ "." +:+ str 2 +:+ newline +:+ newline
                +:+ text h), self', w') ∧
    (∃ ch', dict_get (challenges self') 3 = Some ch' ∧
       hints_used ch' = hints_used ch + 1 ∧
       info ch' = info ch ∧ attempts ch' = attempts ch ∧
       get_tools ch' = get_tools ch ∧ get_resources ch' = get_resources ch) ∧
    (∀ c, c ≠ 3 → dict_get (challenges self') c = dict_get (challenges self) c) ∧
    (∀ cp, Progress.entry w "player" 3 = Some cp →
       ∃ cp', Progress.entry w' "player" 3 = Some cp' ∧
         Scoring.hints_used cp' = Scoring.hints_used cp + 1 ∧
         Scoring.challenge_id cp' = Scoring.challenge_id cp ∧
         Scoring.completed cp' = Scoring.completed cp ∧
         Scoring.score cp' = Scoring.score cp ∧
         Scoring.attempts cp' = Scoring.attempts cp ∧
         Scoring.time_started cp' = Scoring.time_started cp ∧
         Scoring.time_completed cp' = Scoring.time_completed cp ∧
         Scoring.best_score cp' = Scoring.best_score cp) ∧
    (Progress.entry w "player" 3 = None → Progress.entry w' "player" 3 = None).
Proof.
  intros ch w. eexists. split; [reflexivity|].
  assert (Scoring.files w !! "player" ≠ Some Scoring.Corrupt) as Hnc by (by vm_compute).
  assert (∀ p, Progress.stored w "player" = Some p → Scoring.username p = "player")
    as Hu by (vm_compute; by intros p [= <-]).
  split; [simpl; lia|]. split; [exact Hnc|]. split; [exact Hu|].
  split; [vm_compute; by eexists|].
  apply (hint_request_is_counted 1000 _ 3 ch 2 w);
    [reflexivity | simpl; lia | exact Hnc | exact Hu].
Defined.

(** X19. When the player's progress file is corrupt, a hint request for a
    registered challenge at a level from 1 to the number of its hints fails
    with [RecursionError] and writes nothing to the store, and has
    nevertheless left the challenge with [hints_used] one higher (and
    nothing else changed in it, nor in another challenge). *)
Theorem failed_hint_request_is_still_counted recursion_limit self cid ch lvl w :
  dict_get (challenges self) cid = Some ch →
  1 ≤ lvl ≤ Z.of_nat (length (hints (info ch))) →
  Scoring.files w !! "player" = Some Scoring.Corrupt →
  ∃ self' ch',
    _get_hint recursion_limit self cid lvl w = (Raises RecursionError, self', w) ∧
    dict_get (challenges self') cid = Some ch' ∧
    hints_used ch' = hints_used ch + 1 ∧
    info ch' = info ch ∧ attempts ch' = attempts ch ∧
    get_tools ch' = get_tools ch ∧ get_resources ch' = get_resources ch ∧
    (∀ c, c ≠ cid → dict_get (challenges self') c = dict_get (challenges self) c).
Proof.
  intros Hch Hlvl Hf.
  destruct (BaseFacts.getitem_in_range (hints (info ch)) (lvl - 1)) as (h & Hh & Hget);
    [lia|].
  eexists _, _. unfold _get_hint. rewrite Hch. unfold get_hint.
  rewrite decide_True by lia. simpl. rewrite Hget.
  unfold Scoring.use_hint, Scoring.bind, Scoring.load_progress.
  rewrite (ScoringProps.load_progress_at_corrupt _ _ _ Hf).
  split; [reflexivity|]. simpl. split; [apply dict_get_set_eq|].
  do 5 (split; [done|]). intros c Hc. by apply dict_get_set_ne.
Qed.

Lemma failed_hint_request_is_still_counted_witness :
  let ch := challenge_with three_hints [] [] in
  let w := {| Scoring.files := {["player" := Scoring.Corrupt]};
              Scoring.clock := 0%nat |} in
  ∃ self, __init__ urlparse_model [(3, ch)] = Returns self ∧
  1 ≤ 1 ≤ Z.of_nat (length (hints (info ch))) ∧
  Scoring.files w !! "player" = Some Scoring.Corrupt ∧
  ∃ self' ch',
    _get_hint 1000 self 3 1 w = (Raises RecursionError, self', w) ∧
    dict_get (challenges self') 3 = Some ch' ∧
    hints_used ch' = hints_used ch + 1 ∧
    info ch' = info ch ∧ attempts ch' = attempts ch ∧
    get_tools ch' = get_tools ch ∧ get_resources ch' = get_resources ch ∧
    (∀ c, c ≠ 3 → dict_get (challenges self') c = dict_get (challenges self) c).
Proof.
  intros ch w. eexists. split; [reflexivity|].
  split; [simpl; lia|]. split; [reflexivity|].
  apply (failed_hint_request_is_still_counted 1000 _ 3 ch 1 w);
    [reflexivity | simpl; lia | reflexivity].
Defined.

End HintFacts.
